(** * The QUIC packet handler map of quic-go (vendored in avonsg_openshift)

    Shallow embedding of
    [vendor/github.com/lucas-clemente/quic-go/packet_handler_map.go]:
    the connection-ID registry ([handlers], [resetTokens], [server],
    [closed]), its lifecycle operations, the dispatcher [handlePacket]
    and the receiver loop [listen].

    Conventions of the embedding.
    - The two Go maps are [gmap]s keyed by byte strings.
    - Calls into collaborators (connection handlers, the listening
      server, the logger, [time.AfterFunc]) are recorded, in program
      order, as a list of [event]s returned next to the new state.
    - Every operation takes the mutex around its whole body, so each
      one is an atomic step on the registry, started with the mutex
      free.  One path of [handlePacket] returns with the read lock
      still held; the lookup records it, and the receiver loop, the
      only caller of [handlePacket], keeps count of the read locks it
      has left behind and stops for good in [close] when there is
      one.  The goroutines spawned by
      [CloseServer] and [close] are joined before the call returns; the
      model runs them one after the other, in the iteration order of
      the map, and puts the [closeWithError] of [close] after them.
      Statements below that count calls do not depend on that order.
    - [int] is 64 bits wide; [protocol.ByteCount] is [uint64] and
      [protocol.PacketNumberLen] is [uint8].  Arithmetic on them is on
      [Z] with the wrap-around written out. *)

From Stdlib Require Import ZArith Strings.Byte.
From stdpp Require Import gmap list strings.

#[local] Open Scope Z_scope.

Module quic.

(** ** Bytes, identifiers, errors *)

Abbreviation bytes := (list byte).

#[global] Instance byte_eq_dec : EqDecision byte := Byte.byte_eq_dec.
#[global] Program Instance byte_countable : Countable byte :=
  inj_countable Byte.to_N Byte.of_N _.
Next Obligation. intros b. apply Byte.of_to_N. Qed.

(** [protocol.ConnectionID] is a [[]byte]; [string(id)] has the same bytes. *)
Abbreviation ConnectionID := (list byte).

(** A stateless reset token, [[16]byte]. *)
Abbreviation ResetToken := (list byte).

Abbreviation Addr := string.
Abbreviation Time := Z.
Abbreviation Duration := Z.
Abbreviation VersionNumber := Z.

Inductive Perspective := PerspectiveServer | PerspectiveClient.

Definition Opposite (p : Perspective) : Perspective :=
  match p with
  | PerspectiveServer => PerspectiveClient
  | PerspectiveClient => PerspectiveServer
  end.

(** Go [error] values.  [ErrExternal] stands for the errors produced
    outside this file (socket reads, the header parsers); the other
    constructors are the [fmt.Errorf] and [errors.New] values the
    file builds itself, with their format arguments. *)
Inductive error :=
| ErrExternal (msg : string)
| ErrInvariantHeader (cause : error)
| ErrParsingHeader (cause : error)
| ErrShortHeaderUnexpectedConnID (id : ConnectionID)
| ErrUnexpectedConnID (id : ConnectionID)
| ErrLengthShorterThanPacketNumber (len pnLen : Z)
| ErrLengthSmallerThanExpected (have expected : Z)
| ErrStatelessReset.

(** What a Go call yields: [nil], an error, or a run-time panic (a
    slice expression out of range). *)
Inductive result := Nil | Error (e : error) | Panic.

(** ** Collaborators *)

(** A [packetHandler] interface value: the identity of the session
    behind it and what its getters answer. *)
Record packetHandler := {
  handlerRef : nat;
  GetPerspective : Perspective;
  GetVersion : VersionNumber
}.

(** An [unknownPacketHandler] interface value (the listening server). *)
Record unknownPacketHandler := { serverRef : nat }.

Module InvariantHeader.
Record t := {
  IsLongHeader : bool;
  Version : VersionNumber;
  DestConnectionID : ConnectionID
}.
End InvariantHeader.

Module Header.
Record t := {
  Raw : bytes;
  IsLongHeader : bool;
  Length : Z;           (* protocol.ByteCount *)
  PacketNumberLen : Z   (* protocol.PacketNumberLen *)
}.
Definition setRaw (raw : bytes) (hdr : t) : t :=
  {| Raw := raw; IsLongHeader := IsLongHeader hdr;
     Length := Length hdr; PacketNumberLen := PacketNumberLen hdr |}.
End Header.

Record receivedPacket := {
  remoteAddr : Addr;
  header : Header.t;
  data : bytes;
  rcvTime : Time
}.

#[global] Instance Perspective_eq_dec : EqDecision Perspective.
Proof. solve_decision. Defined.
#[global] Instance packetHandler_eq_dec : EqDecision packetHandler.
Proof. solve_decision. Defined.
#[global] Instance unknownPacketHandler_eq_dec : EqDecision unknownPacketHandler.
Proof. solve_decision. Defined.

(** The calls the registry makes on its collaborators. *)
Inductive event :=
| EvHandlePacket (h : packetHandler) (p : receivedPacket)
| EvServerHandlePacket (s : unknownPacketHandler) (p : receivedPacket)
| EvDestroy (h : packetHandler) (e : error)
| EvClose (h : packetHandler)
| EvCloseWithError (s : unknownPacketHandler) (e : error)
| EvAfterFunc (d : Duration) (id : ConnectionID)
| EvDebugf (addr : Addr) (e : error).

(** ** Machine integers *)

Definition uint64 (z : Z) : Z := z mod 2 ^ 64.
Definition int64 (z : Z) : Z := (z + 2 ^ 63) mod 2 ^ 64 - 2 ^ 63.

(** ** [bytes.Reader] *)

Record Reader := { s : bytes; i : nat }.

Definition NewReader (b : bytes) : Reader := {| s := b; i := 0 |}.
Definition Len (r : Reader) : nat := (length (s r) - i r)%nat.
Definition unread (r : Reader) : bytes := drop (i r) (s r).
Definition advance (n : nat) (r : Reader) : Reader :=
  {| s := s r; i := (i r + n) `min` length (s r) |}.

(** ** The parts of the protocol packages that are not in this file

    [internal/protocol] supplies three constants and [internal/wire]
    the two header parsers.  A parser is given the unread bytes of the
    reader and answers with an error, or with the parsed header and the
    number of bytes it read.  The two laws are the Go types of the
    fields ([uint64] and [uint8]). *)
Class Protocol := {
  MaxReceivePacketSize : nat;
  MinStatelessResetSize : nat;
  RetiredConnectionIDDeleteTimeout : Duration;
  ParseInvariantHeader : bytes → Z → error + InvariantHeader.t * nat;
  Parse : InvariantHeader.t → bytes → Perspective → VersionNumber →
          error + Header.t * nat;
  Parse_Length_range : ∀ iHdr b p v hdr n,
    Parse iHdr b p v = inr (hdr, n) → 0 ≤ Header.Length hdr < 2 ^ 64;
  Parse_PacketNumberLen_range : ∀ iHdr b p v hdr n,
    Parse iHdr b p v = inr (hdr, n) → 0 ≤ Header.PacketNumberLen hdr < 2 ^ 8
}.

(** ** The registry *)

Record packetHandlerEntry := {
  handler : packetHandler;
  resetToken : option ResetToken
}.

Record packetHandlerMap := {
  connIDLen : Z;
  handlers : gmap bytes packetHandlerEntry;
  resetTokens : gmap bytes packetHandler;
  server : option unknownPacketHandler;
  closed : bool;
  deleteRetiredSessionsAfter : Duration
}.

Definition set_handlers (f : gmap bytes packetHandlerEntry → gmap bytes packetHandlerEntry)
    (h : packetHandlerMap) : packetHandlerMap :=
  {| connIDLen := connIDLen h; handlers := f (handlers h);
     resetTokens := resetTokens h; server := server h; closed := closed h;
     deleteRetiredSessionsAfter := deleteRetiredSessionsAfter h |}.

Definition set_resetTokens (f : gmap bytes packetHandler → gmap bytes packetHandler)
    (h : packetHandlerMap) : packetHandlerMap :=
  {| connIDLen := connIDLen h; handlers := handlers h;
     resetTokens := f (resetTokens h); server := server h; closed := closed h;
     deleteRetiredSessionsAfter := deleteRetiredSessionsAfter h |}.

Definition set_server (srv : option unknownPacketHandler)
    (h : packetHandlerMap) : packetHandlerMap :=
  {| connIDLen := connIDLen h; handlers := handlers h;
     resetTokens := resetTokens h; server := srv; closed := closed h;
     deleteRetiredSessionsAfter := deleteRetiredSessionsAfter h |}.

Definition set_closed (b : bool) (h : packetHandlerMap) : packetHandlerMap :=
  {| connIDLen := connIDLen h; handlers := handlers h;
     resetTokens := resetTokens h; server := server h; closed := b;
     deleteRetiredSessionsAfter := deleteRetiredSessionsAfter h |}.

Section Registry.
Context `{P : Protocol}.

Definition newPacketHandlerMap (connIDLen : Z) : packetHandlerMap :=
  {| connIDLen := connIDLen; handlers := ∅; resetTokens := ∅;
     server := None; closed := false;
     deleteRetiredSessionsAfter := RetiredConnectionIDDeleteTimeout |}.

Definition Add (id : ConnectionID) (handler : packetHandler)
    (h : packetHandlerMap) : packetHandlerMap :=
  set_handlers <[id := {| handler := handler; resetToken := None |}]> h.

Definition AddWithResetToken (id : ConnectionID) (handler : packetHandler)
    (token : ResetToken) (h : packetHandlerMap) : packetHandlerMap :=
  set_resetTokens <[token := handler]>
    (set_handlers <[id := {| handler := handler; resetToken := Some token |}]> h).

Definition removeByConnectionIDAsString (id : bytes)
    (h : packetHandlerMap) : packetHandlerMap :=
  match handlers h !! id with
  | Some handlerEntry =>
      let h :=
        match resetToken handlerEntry with
        | Some token => set_resetTokens (delete token) h
        | None => h
        end in
      set_handlers (delete id) h
  | None => h
  end.

Definition Remove (id : ConnectionID) (h : packetHandlerMap) : packetHandlerMap :=
  removeByConnectionIDAsString id h.

(** [time.AfterFunc] returns at once; the callback it is given is
    [removeByConnectionIDAsString id]. *)
Definition retireByConnectionIDAsString (id : bytes)
    (h : packetHandlerMap) : list event :=
  [EvAfterFunc (deleteRetiredSessionsAfter h) id].

Definition Retire (id : ConnectionID) (h : packetHandlerMap) : list event :=
  retireByConnectionIDAsString id h.

Definition SetServer (srv : option unknownPacketHandler)
    (h : packetHandlerMap) : packetHandlerMap :=
  set_server srv h.

(** One goroutine of [CloseServer]. *)
Definition closeServerTask (h : packetHandlerMap)
    (kv : bytes * packetHandlerEntry) : list event :=
  if decide (GetPerspective (handler kv.2) = PerspectiveServer)
  then EvClose (handler kv.2) :: retireByConnectionIDAsString kv.1 h
  else [].

Definition CloseServer (h : packetHandlerMap) : packetHandlerMap * list event :=
  let h := set_server None h in
  (h, concat (closeServerTask h <$> map_to_list (handlers h))).

Definition close (e : error) (h : packetHandlerMap)
    : packetHandlerMap * list event * result :=
  if closed h then (h, [], Nil)
  else
    let h := set_closed true h in
    let destroys :=
      (λ kv : bytes * packetHandlerEntry, EvDestroy (handler kv.2) e)
        <$> map_to_list (handlers h) in
    let srv :=
      match server h with
      | Some srv => [EvCloseWithError srv e]
      | None => []
      end in
    (h, destroys ++ srv, Nil).

(** ** The dispatcher *)

(** What the read-locked part of [handlePacket] decides: go on with
    the packet, holding the entry point to deliver it to and the
    perspective and version to parse it with, or return at once.  A
    packet that goes on has passed [h.mutex.RUnlock()]; a return says
    whether it left the read lock held. *)
Inductive routing :=
| Deliver (handlePacket : receivedPacket → event)
          (sentBy : Perspective) (version : VersionNumber)
| Return (calls : list event) (res : result) (rlocked : bool).

(** Source lines 174-209: the lookup under [h.mutex.RLock()].  The
    slice expression [data[len(data)-16:]] panics on fewer than 16
    bytes.  The returns of lines 195 and 203 come after an
    [h.mutex.RUnlock()]; the return of line 199 does not, and leaves
    the read lock held. *)
Definition handlePacket_lookup (h : packetHandlerMap)
    (iHdr : InvariantHeader.t) (data : bytes) : routing :=
  let dest := InvariantHeader.DestConnectionID iHdr in
  match handlers h !! dest with
  | Some handlerEntry =>
      let handler := handler handlerEntry in
      Deliver (EvHandlePacket handler)
              (Opposite (GetPerspective handler)) (GetVersion handler)
  | None =>
      if negb (InvariantHeader.IsLongHeader iHdr) then
        if bool_decide (MinStatelessResetSize ≤ length data)%nat then
          if bool_decide (length data < 16)%nat then Return [] Panic true
          else
            let token := drop (length data - 16) data in
            match resetTokens h !! token with
            | Some sess => Return [EvDestroy sess ErrStatelessReset] Nil false
            | None => Return [] (Error (ErrShortHeaderUnexpectedConnID dest)) true
            end
        else Return [] (Error (ErrShortHeaderUnexpectedConnID dest)) true
      else
        match server h with
        | None => Return [] (Error (ErrUnexpectedConnID dest)) false
        | Some server =>
            Deliver (EvServerHandlePacket server)
                    PerspectiveClient (InvariantHeader.Version iHdr)
        end
  end.

(** Source lines 218-227: the length checks on a long header, and the
    slice [packetData[:int(hdr.Length)-int(hdr.PacketNumberLen)]]. *)
Definition handlePacket_truncate (hdr : Header.t) (packetData : bytes)
    : result + bytes :=
  if Header.IsLongHeader hdr then
    let len := Header.Length hdr in
    let pnLen := Header.PacketNumberLen hdr in
    if bool_decide (len < uint64 pnLen) then
      inl (Error (ErrLengthShorterThanPacketNumber len pnLen))
    else if bool_decide (uint64 (uint64 (Z.of_nat (length packetData)) + uint64 pnLen) < len) then
      inl (Error (ErrLengthSmallerThanExpected
                    (int64 (Z.of_nat (length packetData) + int64 pnLen)) len))
    else
      let n := int64 (int64 len - int64 pnLen) in
      if bool_decide (0 ≤ n ≤ Z.of_nat (length packetData))
      then inr (take (Z.to_nat n) packetData)
      else inl Panic
  else inr packetData.

Definition handlePacket (rcvTime : Time) (h : packetHandlerMap)
    (addr : Addr) (data : bytes) : list event * result :=
  let r := NewReader data in
  match ParseInvariantHeader (unread r) (connIDLen h) with
  | inl err => ([], Error (ErrInvariantHeader err))
  | inr (iHdr, n) =>
      let r := advance n r in
      match handlePacket_lookup h iHdr data with
      | Return calls res _ => (calls, res)
      | Deliver handlePacket sentBy version =>
          match Parse iHdr (unread r) sentBy version with
          | inl err => ([], Error (ErrParsingHeader err))
          | inr (hdr, n) =>
              let r := advance n r in
              let hdr := Header.setRaw (take (length data - Len r) data) hdr in
              let packetData := drop (length data - Len r) data in
              match handlePacket_truncate hdr packetData with
              | inl res => ([], res)
              | inr packetData =>
                  ([handlePacket {| remoteAddr := addr; header := hdr;
                                    data := packetData; rcvTime := rcvTime |}],
                   Nil)
              end
          end
      end
  end.

(** ** The receiver loop *)

(** What one [h.conn.ReadFrom] yields: a datagram, its sender and the
    clock reading [handlePacket] then takes, or an error. *)
Inductive readResult :=
| ReadOk (now : Time) (addr : Addr) (datagram : bytes)
| ReadErr (err : error).

(** Whether [handlePacket] returns with the read lock of line 174
    still held.  It takes the lock only once the invariant header has
    parsed. *)
Definition leavesRLocked (h : packetHandlerMap) (data : bytes) : bool :=
  match ParseInvariantHeader data (connIDLen h) with
  | inl _ => false
  | inr (iHdr, _) =>
      match handlePacket_lookup h iHdr data with
      | Return _ _ rlocked => rlocked
      | Deliver _ _ _ => false
      end
  end.

(** How the loop stands once the socket has nothing more to say:
    returned, brought down by a panic, blocked in the next read, or
    blocked for ever in the [h.mutex.Lock()] of [close], waiting for a
    read lock that nobody will release. *)
Inductive loopStatus := Returned | Crashed | Reading | Blocked.

(** The [for] loop of [listen], with the number of read locks its
    calls of [handlePacket] have left held so far. *)
Fixpoint listen_loop (rlocks : nat) (reads : list readResult)
    (h : packetHandlerMap) : packetHandlerMap * list event * loopStatus :=
  match reads with
  | [] => (h, [], Reading)
  | ReadErr err :: _ =>
      match rlocks with
      | O => let '(h, calls, _) := close err h in (h, calls, Returned)
      | S _ => (h, [], Blocked)
      end
  | ReadOk now addr datagram :: reads =>
      let data := take MaxReceivePacketSize datagram in
      let rlocks := if leavesRLocked h data then S rlocks else rlocks in
      match handlePacket now h addr data with
      | (calls, Panic) => (h, calls, Crashed)
      | (calls, Nil) =>
          let '(h, calls', st) := listen_loop rlocks reads h in
          (h, calls ++ calls', st)
      | (calls, Error err) =>
          let '(h, calls', st) := listen_loop rlocks reads h in
          (h, calls ++ EvDebugf addr err :: calls', st)
      end
  end.

(** [listen] is started once, by [newPacketHandlerMap], on a mutex
    that is free. *)
Definition listen (reads : list readResult) (h : packetHandlerMap)
    : packetHandlerMap * list event * loopStatus :=
  listen_loop 0 reads h.

(** ** Timers and the passing of time *)

(** A pending [time.AfterFunc]: at [when], run
    [removeByConnectionIDAsString arg]. *)
Record timer := { when : Time; arg : bytes }.

Record World := { phm : packetHandlerMap; clock : Time; timers : list timer }.

Definition afterFuncs (now : Time) (calls : list event) : list timer :=
  omap (λ ev, match ev with
              | EvAfterFunc d id => Some {| when := now + d; arg := id |}
              | _ => None
              end) calls.

Inductive op :=
| OpAdd (id : ConnectionID) (handler : packetHandler)
| OpAddWithResetToken (id : ConnectionID) (handler : packetHandler) (token : ResetToken)
| OpRemove (id : ConnectionID)
| OpRetire (id : ConnectionID)
| OpSetServer (srv : option unknownPacketHandler)
| OpCloseServer
| OpClose (e : error)
| OpSleep (d : Duration).

Definition fire (m : packetHandlerMap) (t : timer) : packetHandlerMap :=
  removeByConnectionIDAsString (arg t) m.

(** The clock moves on by [d]; the timers that are due fire, oldest
    request first. *)
Definition sleep (d : Duration) (w : World) : World :=
  let now := clock w + Z.max 0 d in
  {| phm := foldl fire (phm w) (filter (λ t, when t ≤ now) (timers w));
     clock := now;
     timers := filter (λ t, now < when t) (timers w) |}.

Definition step (w : World) (o : op) : World * list event :=
  let upd (m : packetHandlerMap) (calls : list event) :=
    ({| phm := m; clock := clock w;
        timers := timers w ++ afterFuncs (clock w) calls |}, calls) in
  match o with
  | OpAdd id handler => upd (Add id handler (phm w)) []
  | OpAddWithResetToken id handler token =>
      upd (AddWithResetToken id handler token (phm w)) []
  | OpRemove id => upd (Remove id (phm w)) []
  | OpRetire id => upd (phm w) (Retire id (phm w))
  | OpSetServer srv => upd (SetServer srv (phm w)) []
  | OpCloseServer => let '(m, calls) := CloseServer (phm w) in upd m calls
  | OpClose e => let '(m, calls, _) := close e (phm w) in upd m calls
  | OpSleep d => (sleep d w, [])
  end.

Fixpoint run (w : World) (ops : list op) : World * list event :=
  match ops with
  | [] => (w, [])
  | o :: ops =>
      let '(w, calls) := step w o in
      let '(w, calls') := run w ops in
      (w, calls ++ calls')
  end.

Definition newWorld (connIDLen : Z) : World :=
  {| phm := newPacketHandlerMap connIDLen; clock := 0; timers := [] |}.

End Registry.

(** ** A protocol instance to run the model on

    The constants are those of a QUIC endpoint (1452-byte datagrams,
    42-byte stateless resets, five seconds of grace in nanoseconds).
    The two parsers answer from a script, whatever the bytes: the
    invariant header [iv], then the full header with the given form,
    declared length and packet-number length.  The fields are reduced
    into the range of their Go types. *)
Definition scriptHeader (long : bool) (len pnLen : Z) : Header.t :=
  {| Header.Raw := []; Header.IsLongHeader := long;
     Header.Length := len mod 2 ^ 64;
     Header.PacketNumberLen := pnLen mod 2 ^ 8 |}.

Program Definition scripted (iv : error + InvariantHeader.t * nat)
    (full : error + (bool * Z * Z) * nat) : Protocol :=
  {| MaxReceivePacketSize := 1452;
     MinStatelessResetSize := 42;
     RetiredConnectionIDDeleteTimeout := 5000000000;
     ParseInvariantHeader := λ _ _, iv;
     Parse := λ _ _ _ _,
       match full with
       | inl err => inl err
       | inr (long, len, pnLen, n) => inr (scriptHeader long len pnLen, n)
       end |}.
Next Obligation.
  intros iv [err|[[[long len] pnLen] n]] _ _ _ _ hdr k [=]; subst; simpl.
  apply Z.mod_pos_bound. lia.
Qed.
Next Obligation.
  intros iv [err|[[[long len] pnLen] n]] _ _ _ _ hdr k [=]; subst; simpl.
  apply Z.mod_pos_bound. lia.
Qed.

(** * What the statements speak of *)

(** ** The length checks, without the machine arithmetic *)

(** A datagram short enough that its length plus a packet-number
    length is still an [int]. *)
Definition fitsInt (data : bytes) : Prop :=
  Z.of_nat (length data) + 2 ^ 8 ≤ 2 ^ 63.

(** The declared length covers the packet number and is covered by
    what was captured. *)
Definition lengthsOk (hdr : Header.t) (packetData : bytes) : bool :=
  negb (Header.IsLongHeader hdr)
  || (bool_decide (Header.PacketNumberLen hdr ≤ Header.Length hdr)
      && bool_decide (Header.Length hdr
                      ≤ Z.of_nat (length packetData) + Header.PacketNumberLen hdr)).

Definition payload (hdr : Header.t) (packetData : bytes) : bytes :=
  if Header.IsLongHeader hdr
  then take (Z.to_nat (Header.Length hdr - Header.PacketNumberLen hdr)) packetData
  else packetData.

Definition isLengthMismatch (e : error) : bool :=
  match e with
  | ErrLengthShorterThanPacketNumber _ _ | ErrLengthSmallerThanExpected _ _ => true
  | _ => false
  end.

(** ** The reset-token index and its owners *)

(** [id] is registered with an entry whose token is [tok]. *)
Definition ownsToken (m : packetHandlerMap) (tok : ResetToken) (id : bytes) : Prop :=
  ∃ entry, handlers m !! id = Some entry ∧ resetToken entry = Some tok.

(** Every token of the index is the token of exactly one entry. *)
Definition tokensOwned (m : packetHandlerMap) : Prop :=
  ∀ tok, is_Some (resetTokens m !! tok) →
    ∃ id, ownsToken m tok id ∧ ∀ id', ownsToken m tok id' → id' = id.

(** Every token of an entry is in the index. *)
Definition tokensIndexed (m : packetHandlerMap) : Prop :=
  ∀ tok id, ownsToken m tok id → is_Some (resetTokens m !! tok).

Definition consistent (m : packetHandlerMap) : Prop :=
  tokensOwned m ∧ tokensIndexed m.

(** The entry under [id], if there is one, carries no token. *)
Definition tokenless (m : packetHandlerMap) (id : bytes) : bool :=
  match handlers m !! id with
  | Some entry => bool_decide (resetToken entry = None)
  | None => true
  end.

(** The operation overwrites no entry that carries a token and brings
    no token that the index already holds. *)
Definition collisionFree (m : packetHandlerMap) (o : op) : bool :=
  match o with
  | OpAdd id _ => tokenless m id
  | OpAddWithResetToken id _ token =>
      tokenless m id && bool_decide (resetTokens m !! token = None)
  | _ => true
  end.

Fixpoint collisionFreeRun (w : World) (ops : list op) : bool :=
  match ops with
  | [] => true
  | o :: ops => collisionFree (phm w) o && collisionFreeRun (step w o).1 ops
  end.

(** ** Counting calls *)

Definition isDestroyOf (hd : packetHandler) (ev : event) : Prop :=
  match ev with EvDestroy h _ => h = hd | _ => False end.

Definition isCloseOf (hd : packetHandler) (ev : event) : Prop :=
  match ev with EvClose h => h = hd | _ => False end.

Definition isCloseWithError (ev : event) : Prop :=
  match ev with EvCloseWithError _ _ => True | _ => False end.

#[global] Instance isDestroyOf_dec hd ev : Decision (isDestroyOf hd ev).
Proof. destruct ev; simpl; apply _. Defined.
#[global] Instance isCloseOf_dec hd ev : Decision (isCloseOf hd ev).
Proof. destruct ev; simpl; apply _. Defined.
#[global] Instance isCloseWithError_dec ev : Decision (isCloseWithError ev).
Proof. destruct ev; simpl; apply _. Defined.

(** How often [destroy], and [Close], is called on a handler. *)
Definition destroyCalls (hd : packetHandler) (calls : list event) : nat :=
  length (filter (isDestroyOf hd) calls).
Definition closeCalls (hd : packetHandler) (calls : list event) : nat :=
  length (filter (isCloseOf hd) calls).

(** Under how many connection IDs a handler is registered. *)
Definition entriesOf (hd : packetHandler) (m : packetHandlerMap) : nat :=
  length (filter (λ kv : bytes * packetHandlerEntry, handler kv.2 = hd)
                 (map_to_list (handlers m))).

(** The [time.AfterFunc] requests among the calls. *)
Definition retirements (calls : list event) : list (Duration * bytes) :=
  omap (λ ev, match ev with EvAfterFunc d id => Some (d, id) | _ => None end) calls.

Definition isServerEntry (kv : bytes * packetHandlerEntry) : Prop :=
  GetPerspective (handler kv.2) = PerspectiveServer.

#[global] Instance isServerEntry_dec kv : Decision (isServerEntry kv).
Proof. unfold isServerEntry. apply _. Defined.

(** What one goroutine of [CloseServer] does for a server-side entry:
    [Close], then the retirement of the connection ID. *)
Definition closeAndRetire (d : Duration) (kv : bytes * packetHandlerEntry)
    : list event :=
  [EvClose (handler kv.2); EvAfterFunc d kv.1].

(** ** The receiver loop, turn by turn *)

Definition isReadOk (r : readResult) : Prop :=
  match r with ReadOk _ _ _ => True | ReadErr _ => False end.
Definition isReadErr (r : readResult) : Prop :=
  match r with ReadErr _ => True | ReadOk _ _ _ => False end.

(** What one iteration does with a datagram: the calls of
    [handlePacket] and, if it returned an error, the log line. *)
Definition dispatch `{P : Protocol} (h : packetHandlerMap) (r : readResult) : list event :=
  match r with
  | ReadOk now addr datagram =>
      let '(calls, res) :=
        handlePacket now h addr (take MaxReceivePacketSize datagram) in
      calls ++ match res with Error err => [EvDebugf addr err] | _ => [] end
  | ReadErr _ => []
  end.

(** Whether the turn of the loop on [r] leaves a read lock held. *)
Definition leaks `{P : Protocol} (h : packetHandlerMap) (r : readResult) : bool :=
  match r with
  | ReadOk _ _ datagram => leavesRLocked h (take MaxReceivePacketSize datagram)
  | ReadErr _ => false
  end.

(** The read locks held once the loop has been through [reads]. *)
Definition rlocksAfter `{P : Protocol} (h : packetHandlerMap) (rlocks : nat)
    (reads : list readResult) : nat :=
  foldl (λ k r, if leaks h r then S k else k) rlocks reads.

(** ** Sample handlers, identifiers and protocols *)

Definition hS : packetHandler :=
  {| handlerRef := 1; GetPerspective := PerspectiveServer; GetVersion := 1 |}.
Definition hC : packetHandler :=
  {| handlerRef := 2; GetPerspective := PerspectiveClient; GetVersion := 1 |}.
Definition idA : ConnectionID := [x0a; x01].
Definition idB : ConnectionID := [x0b; x02].
Definition idX : ConnectionID := [x0c; x03].
Definition tokA : ResetToken := replicate 16 xaa.

Definition shortTo (id : ConnectionID) : InvariantHeader.t :=
  {| InvariantHeader.IsLongHeader := false; InvariantHeader.Version := 0;
     InvariantHeader.DestConnectionID := id |}.
Definition longTo (id : ConnectionID) : InvariantHeader.t :=
  {| InvariantHeader.IsLongHeader := true; InvariantHeader.Version := 1;
     InvariantHeader.DestConnectionID := id |}.

(** A short header for [idA] whose full parse fails. *)
Definition truncatedToA : Protocol :=
  scripted (inr (shortTo idA, 3%nat)) (inl (ErrExternal "EOF")).
(** A short header for [idA] with a one-byte packet number. *)
Definition shortToA : Protocol :=
  scripted (inr (shortTo idA, 3%nat)) (inr (false, 0, 1, 1%nat)).
(** A short header for the unregistered [idX]. *)
Definition shortToX : Protocol :=
  scripted (inr (shortTo idX, 3%nat)) (inr (false, 0, 1, 1%nat)).
(** A long header for [idA]: seven bytes of invariant header, three
    more of header, declared length 5 and a two-byte packet number. *)
Definition longToA : Protocol :=
  scripted (inr (longTo idA, 7%nat)) (inr (true, 5, 2, 3%nat)).

Definition withA (P : Protocol) : packetHandlerMap :=
  Add idA hS (newPacketHandlerMap 2).
Definition withTokenA (P : Protocol) : packetHandlerMap :=
  AddWithResetToken idA hS tokA (newPacketHandlerMap 2).
Definition twiceS (P : Protocol) : packetHandlerMap :=
  Add idB hS (Add idA hS (newPacketHandlerMap 2)).

Definition quietRun : list op :=
  [OpAddWithResetToken idA hS tokA; OpAdd idB hC; OpRetire idA;
   OpSleep 6000000000; OpRemove idB].

(** ** What a call hands over *)

(** The packet of a delivery, to a handler or to the server. *)
Definition packetOf (ev : event) : option receivedPacket :=
  match ev with
  | EvHandlePacket _ p | EvServerHandlePacket _ p => Some p
  | _ => None
  end.

(** The bytes of the datagram a packet carries: its header, then its
    payload. *)
Definition bytesOf (p : receivedPacket) : bytes :=
  Header.Raw (header p) ++ data p.

(** Every token of the index leads to the handler of an entry that
    carries that token. *)
Definition indexAgrees (m : packetHandlerMap) : Prop :=
  ∀ tok hd, resetTokens m !! tok = Some hd →
    ∃ id, handlers m !! id = Some {| handler := hd; resetToken := Some tok |}.

(** ** More samples *)

Definition srv1 : unknownPacketHandler := {| serverRef := 7 |}.

(** A datagram whose invariant header does not parse. *)
Definition unparsable : Protocol :=
  scripted (inl (ErrExternal "EOF")) (inl (ErrExternal "EOF")).
(** A long header for the unregistered [idX], shaped as [longToA]. *)
Definition longToX : Protocol :=
  scripted (inr (longTo idX, 7%nat)) (inr (true, 5, 2, 3%nat)).

Definition withServer (P : Protocol) : packetHandlerMap :=
  SetServer (Some srv1) (withTokenA P).

(** [hS] under [idA] and the client-side [hC] under [idB]. *)
Definition mixed (P : Protocol) : packetHandlerMap :=
  Add idB hC (Add idA hS (newPacketHandlerMap 2)).

(** * Properties *)

(** ** The reader *)

Lemma unread_advance (n : nat) (b : bytes) :
  unread (advance n (NewReader b)) = drop n b.
Proof.
  unfold unread, advance, NewReader; simpl.
  destruct (decide (n ≤ length b)%nat).
  - by rewrite Nat.min_l.
  - rewrite Nat.min_r by lia. rewrite !drop_ge; [done | lia | lia].
Qed.

Lemma consumed_advance (n k : nat) (b : bytes) :
  (length b - Len (advance k (advance n (NewReader b))) = (n + k) `min` length b)%nat.
Proof. unfold Len, advance, NewReader; simpl. lia. Qed.

Lemma take_min_length {A} (n : nat) (l : list A) :
  take (n `min` length l) l = take n l.
Proof.
  destruct (decide (n ≤ length l)%nat).
  - by rewrite Nat.min_l.
  - rewrite Nat.min_r by lia. rewrite !take_ge; [done | lia | lia].
Qed.

Lemma drop_min_length {A} (n : nat) (l : list A) :
  drop (n `min` length l) l = drop n l.
Proof.
  destruct (decide (n ≤ length l)%nat).
  - by rewrite Nat.min_l.
  - rewrite Nat.min_r by lia. rewrite !drop_ge; [done | lia | lia].
Qed.

(** ** The length checks *)

Lemma handlePacket_truncate_ok (hdr : Header.t) (packetData : bytes) :
  0 ≤ Header.Length hdr < 2 ^ 64 →
  0 ≤ Header.PacketNumberLen hdr < 2 ^ 8 →
  fitsInt packetData →
  lengthsOk hdr packetData = true →
  handlePacket_truncate hdr packetData = inr (payload hdr packetData).
Proof.
  unfold handlePacket_truncate, lengthsOk, payload, fitsInt, uint64, int64.
  intros HL Hpn Hfit Hok.
  destruct (Header.IsLongHeader hdr); simpl in Hok; [|done].
  apply andb_prop in Hok as [H1%bool_decide_eq_true H2%bool_decide_eq_true].
  rewrite (Z.mod_small (Header.PacketNumberLen hdr)) by lia.
  rewrite (Z.mod_small (Z.of_nat _)) by lia.
  rewrite (Z.mod_small (_ + _)) by lia.
  rewrite bool_decide_eq_false_2 by lia.
  rewrite bool_decide_eq_false_2 by lia.
  replace ((Header.Length hdr + 2 ^ 63) `mod` 2 ^ 64 - 2 ^ 63)
    with (Header.Length hdr)
    by (rewrite Z.mod_small; lia).
  replace ((Header.PacketNumberLen hdr + 2 ^ 63) `mod` 2 ^ 64 - 2 ^ 63)
    with (Header.PacketNumberLen hdr)
    by (rewrite Z.mod_small; lia).
  rewrite (Z.mod_small (_ + 2 ^ 63)) by lia.
  rewrite bool_decide_eq_true_2 by lia.
  f_equal. f_equal. lia.
Qed.

Lemma handlePacket_truncate_mismatch (hdr : Header.t) (packetData : bytes) :
  0 ≤ Header.Length hdr < 2 ^ 64 →
  0 ≤ Header.PacketNumberLen hdr < 2 ^ 8 →
  fitsInt packetData →
  lengthsOk hdr packetData = false →
  ∃ e, isLengthMismatch e = true
       ∧ handlePacket_truncate hdr packetData = inl (Error e).
Proof.
  unfold handlePacket_truncate, lengthsOk, fitsInt, uint64.
  intros HL Hpn Hfit Hok.
  destruct (Header.IsLongHeader hdr); simpl in Hok; [|done].
  rewrite (Z.mod_small (Header.PacketNumberLen hdr)) by lia.
  rewrite (Z.mod_small (Z.of_nat _)) by lia.
  rewrite (Z.mod_small (_ + _)) by lia.
  destruct (decide (Header.Length hdr < Header.PacketNumberLen hdr)) as [H1|H1].
  { rewrite bool_decide_eq_true_2 by done. eexists; split; [|reflexivity]; done. }
  rewrite bool_decide_eq_false_2 by done.
  destruct (decide (Z.of_nat (length packetData) + Header.PacketNumberLen hdr
                    < Header.Length hdr)) as [H2|H2].
  { rewrite bool_decide_eq_true_2 by done. eexists; split; [|reflexivity]; done. }
  apply andb_false_iff in Hok as [H%bool_decide_eq_false|H%bool_decide_eq_false]; lia.
Qed.

Section Dispatcher.
Context `{P : Protocol}.

(** [handlePacket] once the lookup has chosen where to deliver: the
    full parse, the length checks and the call. *)
Lemma handlePacket_routed now h addr data iHdr n deliver sentBy version :
  fitsInt data →
  ParseInvariantHeader data (connIDLen h) = inr (iHdr, n) →
  handlePacket_lookup h iHdr data = Deliver deliver sentBy version →
  match Parse iHdr (drop n data) sentBy version with
  | inl err => handlePacket now h addr data = ([], Error (ErrParsingHeader err))
  | inr (hdr, k) =>
      let hdr := Header.setRaw (take (n + k) data) hdr in
      let packetData := drop (n + k) data in
      if lengthsOk hdr packetData then
        handlePacket now h addr data
        = ([deliver {| remoteAddr := addr; header := hdr;
                       data := payload hdr packetData; rcvTime := now |}], Nil)
      else
        ∃ e, isLengthMismatch e = true
             ∧ handlePacket now h addr data = ([], Error e)
  end.
Proof.
  intros Hfit Hiv Hlk. unfold handlePacket.
  replace (unread (NewReader data)) with data by done.
  rewrite Hiv, Hlk, unread_advance.
  destruct (Parse iHdr (drop n data) sentBy version) as [err|[hdr k]] eqn:Hp; [done|].
  rewrite consumed_advance, take_min_length, drop_min_length. simpl.
  pose proof (Parse_Length_range _ _ _ _ _ _ Hp) as HL.
  pose proof (Parse_PacketNumberLen_range _ _ _ _ _ _ Hp) as Hpn.
  set (hdr' := Header.setRaw _ hdr).
  assert (fitsInt (drop (n + k) data)) as Hfit'.
  { unfold fitsInt in *. rewrite length_drop. lia. }
  destruct (lengthsOk hdr' (drop (n + k) data)) eqn:Hok.
  - by rewrite (handlePacket_truncate_ok hdr' _ HL Hpn Hfit' Hok).
  - destruct (handlePacket_truncate_mismatch hdr' _ HL Hpn Hfit' Hok) as (e & He & ->).
    by exists e.
Qed.

Lemma handlePacket_lookup_found h iHdr dgram entry :
  handlers h !! InvariantHeader.DestConnectionID iHdr = Some entry →
  handlePacket_lookup h iHdr dgram
  = Deliver (EvHandlePacket (handler entry))
            (Opposite (GetPerspective (handler entry)))
            (GetVersion (handler entry)).
Proof. intros Hl. unfold handlePacket_lookup. by rewrite Hl. Qed.

(** C1, as amended.  A datagram (of a length that fits an [int])
    whose invariant header names a registered connection ID is parsed
    as sent by the opposite of the perspective of the handler
    registered under that ID, and under that handler's version.  If
    the full parse and the
    long-header length checks pass, [handlePacket] makes exactly one
    call, [handlePacket] on that handler, and returns nil; if they do
    not, it makes no call at all and returns the error.  No other
    handler and no server is ever called. *)
Theorem C1_registered_id_reaches_only_its_handler
    now h addr dgram id entry iHdr n :
  fitsInt dgram →
  handlers h !! id = Some entry →
  ParseInvariantHeader dgram (connIDLen h) = inr (iHdr, n) →
  InvariantHeader.DestConnectionID iHdr = id →
  match Parse iHdr (drop n dgram) (Opposite (GetPerspective (handler entry)))
              (GetVersion (handler entry)) with
  | inl err =>
      handlePacket now h addr dgram = ([], Error (ErrParsingHeader err))
  | inr (hdr, k) =>
      let hdr := Header.setRaw (take (n + k) dgram) hdr in
      let packetData := drop (n + k) dgram in
      if lengthsOk hdr packetData then
        handlePacket now h addr dgram
        = ([EvHandlePacket (handler entry)
              {| remoteAddr := addr; header := hdr;
                 data := payload hdr packetData; rcvTime := now |}], Nil)
      else
        ∃ e, isLengthMismatch e = true
             ∧ handlePacket now h addr dgram = ([], Error e)
  end.
Proof.
  intros Hfit Hent Hiv <-.
  apply (handlePacket_routed now h addr dgram iHdr n _ _ _ Hfit Hiv).
  by apply handlePacket_lookup_found.
Qed.

(** C4.  A short-header datagram for an unknown connection ID, at
    least [MinStatelessResetSize] long, whose last 16 bytes are a token
    of the index: the only call is [destroy] on the handler the index
    holds for the token, with the stateless-reset error, and the result
    is nil.  Nothing is assumed of [Parse]: the outcome is the same
    whatever the full parser would answer. *)
Theorem C4_stateless_reset_destroys_once
    now h addr dgram iHdr n front tok hd :
  ParseInvariantHeader dgram (connIDLen h) = inr (iHdr, n) →
  InvariantHeader.IsLongHeader iHdr = false →
  handlers h !! InvariantHeader.DestConnectionID iHdr = None →
  (MinStatelessResetSize ≤ length dgram)%nat →
  dgram = front ++ tok →
  length tok = 16%nat →
  resetTokens h !! tok = Some hd →
  handlePacket now h addr dgram = ([EvDestroy hd ErrStatelessReset], Nil).
Proof.
  intros Hiv Hshort Hmiss Hmin -> Htok Hidx.
  unfold handlePacket. replace (unread (NewReader (front ++ tok))) with (front ++ tok) by done.
  rewrite Hiv. unfold handlePacket_lookup.
  rewrite Hmiss, Hshort. simpl.
  rewrite bool_decide_eq_true_2 by done.
  rewrite length_app, Htok.
  rewrite bool_decide_eq_false_2 by lia.
  replace (length front + 16 - 16)%nat with (length front) by lia.
  by rewrite drop_app_length, Hidx.
Qed.

(** C5, as amended.  A long-header packet (in a datagram of a length
    that fits an [int]) that passed the full parse, with declared
    length [L], packet-number length [pnLen] and [R]
    bytes captured after the header.  If [pnLen ≤ L ≤ R + pnLen] the
    chosen entry point is called once, with a payload of exactly
    [L - pnLen] bytes; if [L < pnLen] or [R + pnLen < L] nothing is
    called and a length-mismatch error is returned. *)
Theorem C5_long_header_payload
    now h addr dgram iHdr n deliver sentBy version hdr k :
  fitsInt dgram →
  ParseInvariantHeader dgram (connIDLen h) = inr (iHdr, n) →
  handlePacket_lookup h iHdr dgram = Deliver deliver sentBy version →
  Parse iHdr (drop n dgram) sentBy version = inr (hdr, k) →
  Header.IsLongHeader hdr = true →
  let L := Header.Length hdr in
  let pnLen := Header.PacketNumberLen hdr in
  let R := Z.of_nat (length (drop (n + k) dgram)) in
  (pnLen ≤ L ≤ R + pnLen →
   ∃ p, handlePacket now h addr dgram = ([deliver p], Nil)
        ∧ Z.of_nat (length (data p)) = L - pnLen
        ∧ data p `prefix_of` drop (n + k) dgram)
  ∧ (L < pnLen ∨ R + pnLen < L →
     ∃ e, isLengthMismatch e = true
          ∧ handlePacket now h addr dgram = ([], Error e)).
Proof.
  intros Hfit Hiv Hlk Hp Hlong L pnLen R.
  pose proof (handlePacket_routed now h addr dgram iHdr n _ _ _ Hfit Hiv Hlk) as H.
  rewrite Hp in H. simpl in H.
  unfold lengthsOk, payload in H. simpl in H. rewrite Hlong in H. simpl in H.
  fold L pnLen R in H.
  split.
  - intros [H1 H2].
    rewrite !bool_decide_eq_true_2 in H by done. simpl in H.
    eexists. split; [exact H|]. simpl. split.
    + rewrite length_take. subst R. lia.
    + apply prefix_take.
  - intros Hbad.
    destruct (bool_decide (pnLen ≤ L)) eqn:E1; simpl in H.
    + rewrite bool_decide_eq_false_2 in H; [done|].
      apply bool_decide_eq_true in E1. lia.
    + done.
Qed.

(** C10.  A short-header datagram for an unknown connection ID that is
    shorter than [MinStatelessResetSize]: no call is made and the
    unknown-connection-ID error is returned, and this is so whatever
    the reset-token index holds. *)
Theorem C10_short_datagram_never_resets
    now h addr dgram iHdr n :
  ParseInvariantHeader dgram (connIDLen h) = inr (iHdr, n) →
  InvariantHeader.IsLongHeader iHdr = false →
  handlers h !! InvariantHeader.DestConnectionID iHdr = None →
  (length dgram < MinStatelessResetSize)%nat →
  handlePacket now h addr dgram
  = ([], Error (ErrShortHeaderUnexpectedConnID
                  (InvariantHeader.DestConnectionID iHdr)))
  ∧ ∀ index : gmap bytes packetHandler,
      handlePacket now (set_resetTokens (λ _, index) h) addr dgram
      = handlePacket now h addr dgram.
Proof.
  intros Hiv Hshort Hmiss Hlen.
  assert (∀ index : gmap bytes packetHandler,
            handlePacket now (set_resetTokens (λ _, index) h) addr dgram
            = ([], Error (ErrShortHeaderUnexpectedConnID
                            (InvariantHeader.DestConnectionID iHdr)))) as H.
  { intros index.
    unfold handlePacket. replace (unread (NewReader dgram)) with dgram by done.
    simpl. rewrite Hiv. unfold handlePacket_lookup. simpl.
    rewrite Hmiss, Hshort. simpl.
    by rewrite bool_decide_eq_false_2 by lia. }
  assert (handlePacket now h addr dgram
          = ([], Error (ErrShortHeaderUnexpectedConnID
                          (InvariantHeader.DestConnectionID iHdr)))) as H0.
  { specialize (H (resetTokens h)). by destruct h. }
  split; [done|]. intros index. by rewrite H, H0.
Qed.

End Dispatcher.

(** ** The reset-token index and its owners *)

Lemma tokenless_not_owner m id tok :
  tokenless m id = true → ¬ ownsToken m tok id.
Proof.
  unfold tokenless. intros Hfree (entry & Hent & Htok).
  rewrite Hent in Hfree. apply bool_decide_eq_true in Hfree. congruence.
Qed.

Lemma consistent_empty `{P : Protocol} c : consistent (newPacketHandlerMap c).
Proof.
  split.
  - intros tok [hd Hhd]. simpl in Hhd. by rewrite lookup_empty in Hhd.
  - intros tok id (entry & Hent & _). simpl in Hent. by rewrite lookup_empty in Hent.
Qed.

Lemma consistent_Add m id hd :
  tokenless m id = true → consistent m → consistent (Add id hd m).
Proof.
  intros Hfree [HO HI]. split.
  - intros tok Htok. destruct (HO tok Htok) as (id0 & Hown & Huniq).
    assert (id0 ≠ id) as Hne.
    { intros ->. by eapply tokenless_not_owner. }
    exists id0. split.
    + destruct Hown as (entry & Hent & Ht). exists entry. split; [|done].
      simpl. by rewrite lookup_insert_ne.
    + intros id' (entry & Hent & Ht). simpl in Hent.
      apply lookup_insert_Some in Hent as [[_ <-]|[_ Hent]]; [done|].
      apply Huniq. by exists entry.
  - intros tok id' (entry & Hent & Ht). simpl in Hent.
    apply lookup_insert_Some in Hent as [[_ <-]|[_ Hent]]; [done|].
    apply (HI tok id'). by exists entry.
Qed.

Lemma consistent_AddWithResetToken m id hd token :
  tokenless m id = true → resetTokens m !! token = None →
  consistent m → consistent (AddWithResetToken id hd token m).
Proof.
  intros Hfree Hnew [HO HI]. split.
  - intros tok Htok. simpl in Htok.
    destruct (decide (tok = token)) as [->|Hne].
    + exists id. split.
      * eexists. split; [apply lookup_insert_eq|done].
      * intros id' (entry & Hent & Ht). simpl in Hent.
        apply lookup_insert_Some in Hent as [[? _]|[_ Hent]]; [done|].
        destruct (HI token id') as [hd' Hhd']; [by exists entry|]. congruence.
    + rewrite lookup_insert_ne in Htok by done.
      destruct (HO tok Htok) as (id0 & Hown & Huniq).
      assert (id0 ≠ id) as Hne0.
      { intros ->. by eapply tokenless_not_owner. }
      exists id0. split.
      * destruct Hown as (entry & Hent & Ht). exists entry. split; [|done].
        simpl. by rewrite lookup_insert_ne.
      * intros id' (entry & Hent & Ht). simpl in Hent.
        apply lookup_insert_Some in Hent as [[_ <-]|[_ Hent]].
        { simpl in Ht. congruence. }
        apply Huniq. by exists entry.
  - intros tok id' (entry & Hent & Ht). simpl in Hent. simpl.
    apply lookup_insert_Some in Hent as [[_ <-]|[_ Hent]].
    + simpl in Ht. injection Ht as <-. rewrite lookup_insert_eq. by eexists.
    + destruct (decide (token = tok)) as [->|Hne].
      * rewrite lookup_insert_eq. by eexists.
      * rewrite lookup_insert_ne by done. apply (HI tok id'). by exists entry.
Qed.

Lemma consistent_remove m id :
  consistent m → consistent (removeByConnectionIDAsString id m).
Proof.
  intros [HO HI]. unfold removeByConnectionIDAsString.
  destruct (handlers m !! id) as [gone|] eqn:Hgone; [|done].
  destruct (resetToken gone) as [token|] eqn:Htoken.
  - split.
    + intros tok Htok. simpl in Htok.
      destruct Htok as [hd [Hne Hold]%lookup_delete_Some].
      destruct (HO tok) as (id0 & (entry & Hent & Ht) & Huniq); [by eexists|].
      exists id0. split.
      * exists entry. split; [|done]. simpl.
        rewrite lookup_delete_ne; [done|]. intros ->. congruence.
      * intros id' (entry' & Hent' & Ht'). simpl in Hent'.
        apply lookup_delete_Some in Hent' as [_ Hent'].
        apply Huniq. by exists entry'.
    + intros tok id' (entry & Hent & Ht). simpl in Hent. simpl.
      apply lookup_delete_Some in Hent as [Hne Hent].
      assert (is_Some (resetTokens m !! tok)) as Hidx.
      { apply (HI tok id'). by exists entry. }
      rewrite lookup_delete_ne; [done|]. intros ->.
      destruct (HO tok Hidx) as (id0 & _ & Huniq).
      assert (id = id0) by (apply Huniq; by exists gone).
      assert (id' = id0) by (apply Huniq; by exists entry).
      congruence.
  - split.
    + intros tok Htok. simpl in Htok.
      destruct (HO tok Htok) as (id0 & (entry & Hent & Ht) & Huniq).
      exists id0. split.
      * exists entry. split; [|done]. simpl.
        rewrite lookup_delete_ne; [done|]. intros ->. congruence.
      * intros id' (entry' & Hent' & Ht'). simpl in Hent'.
        apply lookup_delete_Some in Hent' as [_ Hent'].
        apply Huniq. by exists entry'.
    + intros tok id' (entry & Hent & Ht). simpl in Hent. simpl.
      apply lookup_delete_Some in Hent as [_ Hent].
      apply (HI tok id'). by exists entry.
Qed.

Lemma consistent_fire m due :
  consistent m → consistent (foldl fire m due).
Proof.
  revert m. induction due as [|t due IH]; intros m Hm; [done|].
  simpl. apply IH. by apply consistent_remove.
Qed.

(** The operations that leave both maps as they are. *)
Lemma consistent_same_maps m m' :
  handlers m' = handlers m → resetTokens m' = resetTokens m →
  consistent m → consistent m'.
Proof.
  unfold consistent, tokensOwned, tokensIndexed, ownsToken.
  by intros -> ->.
Qed.

Lemma consistent_step w o :
  collisionFree (phm w) o = true →
  consistent (phm w) → consistent (phm (step w o).1).
Proof.
  intros Hfree Hm. destruct o; simpl in *.
  - by apply consistent_Add.
  - apply andb_prop in Hfree as [H1 H2%bool_decide_eq_true].
    by apply consistent_AddWithResetToken.
  - by apply consistent_remove.
  - done.
  - by apply (consistent_same_maps (phm w)).
  - by apply (consistent_same_maps (phm w)).
  - unfold close. destruct (closed (phm w)); simpl; [done|].
    by apply (consistent_same_maps (phm w)).
  - by apply consistent_fire.
Qed.

Lemma consistent_run w ops :
  collisionFreeRun w ops = true →
  consistent (phm w) → consistent (phm (run w ops).1).
Proof.
  revert w. induction ops as [|o ops IH]; intros w Hfree Hm; [done|].
  change (collisionFree (phm w) o && collisionFreeRun (step w o).1 ops = true)
    in Hfree.
  apply andb_prop in Hfree as [Ho Hops].
  pose proof (consistent_step w o Ho Hm) as H1.
  change (run w (o :: ops))
    with (let '(w1, calls) := step w o in
          let '(w2, calls') := run w1 ops in (w2, calls ++ calls')).
  destruct (step w o) as [w1 calls1].
  specialize (IH w1 Hops H1). by destruct (run w1 ops).
Qed.

(** [Remove] takes the entry and its token away together. *)
Lemma Remove_entry_and_token m id entry tok :
  handlers m !! id = Some entry → resetToken entry = Some tok →
  handlers (Remove id m) !! id = None
  ∧ resetTokens (Remove id m) !! tok = None.
Proof.
  intros Hent Htok. unfold Remove, removeByConnectionIDAsString.
  rewrite Hent, Htok. simpl. by rewrite !lookup_delete_eq.
Qed.

(** C2, as amended.  Start from the empty registry and run any
    sequence of operations (adding, removing, retiring, setting and
    closing the server, closing the registry, letting time pass so that
    retirements fire) in which no [Add] or [AddWithResetToken]
    overwrites an entry that carries a token and no [AddWithResetToken]
    brings a token the index already holds.  Then every token of the
    index is the token of exactly one entry of [handlers], and [Remove]
    of an entry with a token deletes the entry and the token in one
    step. *)
Theorem C2_index_tokens_have_one_owner `{P : Protocol} c ops :
  collisionFreeRun (newWorld c) ops = true →
  let m := phm (run (newWorld c) ops).1 in
  tokensOwned m
  ∧ ∀ id entry tok,
      handlers m !! id = Some entry → resetToken entry = Some tok →
      handlers (Remove id m) !! id = None
      ∧ resetTokens (Remove id m) !! tok = None
      ∧ tokensOwned (Remove id m).
Proof.
  intros Hfree m.
  assert (consistent m) as Hm.
  { apply consistent_run; [done|]. apply consistent_empty. }
  split; [apply Hm|].
  intros id entry tok Hent Htok.
  destruct (Remove_entry_and_token m id entry tok Hent Htok) as [H1 H2].
  repeat split; [done..|].
  by apply consistent_remove.
Qed.

(** ** Shutdown *)

Lemma filter_none {A} (Q : A → Prop) `{∀ x, Decision (Q x)} (l : list A) :
  Forall (λ x, ¬ Q x) l → filter Q l = [].
Proof.
  induction 1 as [|x l Hx _ IH]; [done|].
  by rewrite filter_cons_False.
Qed.

Lemma destroyCalls_entries hd e (l : list (bytes * packetHandlerEntry)) :
  destroyCalls hd ((λ kv, EvDestroy (handler kv.2) e) <$> l)
  = length (filter (λ kv : bytes * packetHandlerEntry, handler kv.2 = hd) l).
Proof.
  unfold destroyCalls. induction l as [|kv l IH]; [done|].
  rewrite fmap_cons, !filter_cons. simpl.
  destruct (decide (handler kv.2 = hd)); simpl; by rewrite IH.
Qed.

Lemma destroyCalls_app hd l1 l2 :
  destroyCalls hd (l1 ++ l2) = (destroyCalls hd l1 + destroyCalls hd l2)%nat.
Proof. unfold destroyCalls. by rewrite filter_app, length_app. Qed.

Lemma close_closed e m : closed m = true → close e m = (m, [], Nil).
Proof. intros H. unfold close. by rewrite H. Qed.

(** C3, as amended.  The first [close] sets the flag and touches
    nothing else of the registry, returns nil, and calls [destroy]
    with its error once for every entry of [handlers]: a handler
    registered under [k] connection IDs is destroyed [k] times.  A
    server that is set gets one [closeWithError].  A second [close]
    returns nil, calls nobody and leaves the registry as it is. *)
Theorem C3_close_once_per_entry_then_inert e e' m :
  closed m = false →
  let '(m1, calls, res) := close e m in
  res = Nil
  ∧ m1 = set_closed true m
  ∧ (∀ hd, destroyCalls hd calls = entriesOf hd m)
  ∧ (∀ hd err, EvDestroy hd err ∈ calls → err = e)
  ∧ filter isCloseWithError calls
    = match server m with Some srv => [EvCloseWithError srv e] | None => [] end
  ∧ Forall (λ ev, (∃ hd, isDestroyOf hd ev) ∨ isCloseWithError ev) calls
  ∧ close e' m1 = (m1, [], Nil).
Proof.
  intros Hopen. unfold close at 1. rewrite Hopen. simpl.
  set (destroys := (λ kv : bytes * packetHandlerEntry, EvDestroy (handler kv.2) e)
                     <$> map_to_list (handlers m)).
  set (srv := match server m with
              | Some srv => [EvCloseWithError srv e]
              | None => []
              end).
  assert (Forall (λ ev, ∃ hd, ev = EvDestroy hd e) destroys) as Hd.
  { apply Forall_fmap, Forall_true. intros kv. by eexists. }
  assert (filter isCloseWithError destroys = []) as Hnone.
  { apply filter_none. eapply Forall_impl; [exact Hd|].
    intros ev [hd ->] []. }
  split_and!.
  - done.
  - done.
  - intros hd. rewrite destroyCalls_app.
    unfold destroys. rewrite destroyCalls_entries.
    unfold entriesOf, srv, destroyCalls. by destruct (server m).
  - intros hd err [Hin|Hin]%elem_of_app.
    + rewrite Forall_forall in Hd. destruct (Hd _ Hin) as [hd' [=]]. done.
    + unfold srv in Hin. destruct (server m); [|by apply elem_of_nil in Hin].
      by apply list_elem_of_singleton in Hin.
  - rewrite filter_app, Hnone. unfold srv. by destruct (server m).
  - apply Forall_app. split.
    + eapply Forall_impl; [exact Hd|]. intros ev [hd ->]. left. by exists hd.
    + unfold srv. destruct (server m); [|constructor].
      apply Forall_singleton. by right.
  - by apply close_closed.
Qed.

Lemma closed_step w o : closed (phm w) = true → closed (phm (step w o).1) = true.
Proof.
  intros Hc. destruct o; simpl; try done.
  - unfold Remove, removeByConnectionIDAsString.
    destruct (handlers (phm w) !! id) as [entry|]; [|done].
    by destruct (resetToken entry).
  - by rewrite close_closed.
  - generalize (filter (λ t, when t ≤ clock w + Z.max 0 d) (timers w)).
    intros due. revert Hc. generalize (phm w).
    induction due as [|t due IH]; intros m Hc; [done|].
    simpl. apply IH. unfold fire, removeByConnectionIDAsString.
    destruct (handlers m !! arg t) as [entry|]; [|done].
    by destruct (resetToken entry).
Qed.

Lemma closed_run w ops : closed (phm w) = true → closed (phm (run w ops).1) = true.
Proof.
  revert w. induction ops as [|o ops IH]; intros w Hc; [done|].
  pose proof (closed_step w o Hc) as H1.
  change (run w (o :: ops))
    with (let '(w1, calls) := step w o in
          let '(w2, calls') := run w1 ops in (w2, calls ++ calls')).
  destruct (step w o) as [w1 calls1].
  specialize (IH w1 H1). by destruct (run w1 ops).
Qed.

(** C6, as amended.  [close] sets the flag, and no later operation
    clears it; during that [close] every entry registered at the time
    has [destroy] called on its handler with the error.  [Add] and
    [AddWithResetToken] do not look at the flag: after [close] they
    insert their entry, and the token, as before. *)
Theorem C6_closed_is_final_but_does_not_stop_Add e m :
  closed m = false →
  let m1 := (close e m).1.1 in
  closed m1 = true
  ∧ (∀ id entry, handlers m !! id = Some entry →
       EvDestroy (handler entry) e ∈ (close e m).1.2)
  ∧ (∀ clock timers ops,
       closed (phm (run {| phm := m1; clock := clock; timers := timers |} ops).1)
       = true)
  ∧ (∀ id hd,
       handlers (Add id hd m1) !! id = Some {| handler := hd; resetToken := None |})
  ∧ (∀ id hd tok,
       handlers (AddWithResetToken id hd tok m1) !! id
       = Some {| handler := hd; resetToken := Some tok |}
       ∧ resetTokens (AddWithResetToken id hd tok m1) !! tok = Some hd).
Proof.
  intros Hopen. unfold close. rewrite Hopen. simpl. split_and!.
  - done.
  - intros id entry Hent. apply elem_of_app. left.
    apply list_elem_of_fmap. exists (id, entry). split; [done|].
    by apply elem_of_map_to_list.
  - intros clock timers ops. by apply closed_run.
  - intros id hd. apply lookup_insert_eq.
  - intros id hd tok. split; apply lookup_insert_eq.
Qed.

(** ** Closing the server *)

Lemma CloseServer_calls m :
  (CloseServer m).2
  = filter isServerEntry (map_to_list (handlers m))
      ≫= closeAndRetire (deleteRetiredSessionsAfter m).
Proof.
  unfold CloseServer. simpl.
  induction (map_to_list (handlers m)) as [|kv l IH]; [done|].
  rewrite fmap_cons, filter_cons. simpl. rewrite IH.
  unfold closeServerTask at 1, isServerEntry at 2.
  by destruct (decide (GetPerspective (handler kv.2) = PerspectiveServer)).
Qed.

Lemma closeCalls_closeAndRetire hd d (l : list (bytes * packetHandlerEntry)) :
  closeCalls hd (l ≫= closeAndRetire d)
  = length (filter (λ kv : bytes * packetHandlerEntry, handler kv.2 = hd) l).
Proof.
  unfold closeCalls. induction l as [|kv l IH]; [done|].
  rewrite bind_cons, filter_app, length_app, IH, (filter_cons _ kv).
  unfold closeAndRetire. rewrite filter_cons, filter_cons. simpl.
  by destruct (decide (handler kv.2 = hd)).
Qed.

Lemma filter_server_entries hd (l : list (bytes * packetHandlerEntry)) :
  GetPerspective hd = PerspectiveServer →
  filter (λ kv : bytes * packetHandlerEntry, handler kv.2 = hd)
         (filter isServerEntry l)
  = filter (λ kv : bytes * packetHandlerEntry, handler kv.2 = hd) l.
Proof.
  intros Hsrv. induction l as [|kv l IH]; [done|].
  rewrite (filter_cons isServerEntry), (filter_cons _ kv l).
  destruct (decide (handler kv.2 = hd)) as [Heq|Hne].
  - rewrite decide_True by (unfold isServerEntry; congruence).
    rewrite filter_cons_True by done. by rewrite IH.
  - destruct (decide (isServerEntry kv)); [|done].
    by rewrite filter_cons_False.
Qed.

Lemma retirements_closeAndRetire d (l : list (bytes * packetHandlerEntry)) :
  retirements (l ≫= closeAndRetire d) = (λ kv, (d, kv.1)) <$> l.
Proof.
  unfold retirements. induction l as [|kv l IH]; [done|].
  rewrite bind_cons, fmap_cons, omap_app, IH. done.
Qed.

(** C7, as amended.  [CloseServer] empties the server slot and
    changes nothing else of the registry.  For every entry whose
    handler is on the server side it calls [Close] on the handler and
    then retires the entry's connection ID, once per entry: a handler
    registered under [k] connection IDs has [Close] called [k] times,
    and every such ID is retired exactly once, with the registry's
    delay.  Handlers on the client side get neither [Close] nor
    [destroy].  Afterwards a long-header datagram for an unknown
    connection ID is dropped with the unknown-connection-ID error. *)
Theorem C7_CloseServer_once_per_server_entry `{P : Protocol} m :
  let '(m1, calls) := CloseServer m in
  m1 = set_server None m
  ∧ calls = filter isServerEntry (map_to_list (handlers m))
              ≫= closeAndRetire (deleteRetiredSessionsAfter m)
  ∧ (∀ hd, GetPerspective hd = PerspectiveServer →
       closeCalls hd calls = entriesOf hd m)
  ∧ NoDup (retirements calls).*2
  ∧ (∀ d id, (d, id) ∈ retirements calls ↔
       d = deleteRetiredSessionsAfter m
       ∧ ∃ entry, handlers m !! id = Some entry
                  ∧ GetPerspective (handler entry) = PerspectiveServer)
  ∧ (∀ hd, GetPerspective hd = PerspectiveClient →
       closeCalls hd calls = 0%nat ∧ destroyCalls hd calls = 0%nat)
  ∧ (∀ now addr dgram iHdr n,
       ParseInvariantHeader dgram (connIDLen m1) = inr (iHdr, n) →
       InvariantHeader.IsLongHeader iHdr = true →
       handlers m1 !! InvariantHeader.DestConnectionID iHdr = None →
       handlePacket now m1 addr dgram
       = ([], Error (ErrUnexpectedConnID (InvariantHeader.DestConnectionID iHdr)))).
Proof.
  pose proof (CloseServer_calls m) as Hcalls.
  destruct (CloseServer m) as [m1 calls] eqn:Hcs. simpl in Hcalls.
  assert (m1 = set_server None m) as -> by (unfold CloseServer in Hcs; congruence).
  subst calls. set (d := deleteRetiredSessionsAfter m).
  set (l := map_to_list (handlers m)).
  split_and!.
  - done.
  - done.
  - intros hd Hsrv. rewrite closeCalls_closeAndRetire.
    unfold entriesOf. by rewrite filter_server_entries.
  - rewrite retirements_closeAndRetire, <-list_fmap_compose.
    apply (sublist_NoDup _ (map_to_list (handlers m)).*1);
      [apply NoDup_fst_map_to_list|apply (fmap_sublist fst), sublist_filter].
  - intros d' id. rewrite retirements_closeAndRetire, list_elem_of_fmap. split.
    + intros ([id' entry] & [= -> ->] & [Hsrv Hin]%list_elem_of_filter).
      split; [done|]. exists entry. split; [|done].
      by apply elem_of_map_to_list.
    + intros [-> (entry & Hent & Hsrv)]. exists (id, entry). split; [done|].
      apply list_elem_of_filter. split; [done|]. by apply elem_of_map_to_list.
  - intros hd Hcli. split.
    + rewrite closeCalls_closeAndRetire.
      rewrite (filter_none (λ kv : bytes * packetHandlerEntry, handler kv.2 = hd));
        [done|].
      apply Forall_forall. intros kv [Hsrv _]%list_elem_of_filter Heq.
      unfold isServerEntry in Hsrv. congruence.
    + unfold destroyCalls. rewrite filter_none; [done|].
      apply Forall_forall. intros ev Hin Hd.
      apply list_elem_of_bind in Hin as (kv & Hev & _).
      unfold closeAndRetire in Hev.
      apply elem_of_cons in Hev as [->|Hev]; [done|].
      apply list_elem_of_singleton in Hev as ->. done.
  - intros now addr dgram iHdr n Hiv Hlong Hmiss.
    unfold handlePacket. replace (unread (NewReader dgram)) with dgram by done.
    rewrite Hiv. unfold handlePacket_lookup. rewrite Hmiss, Hlong. done.
Qed.

(** ** Retirement *)

Lemma fire_absent m t : handlers m !! arg t = None → fire m t = m.
Proof. intros Habs. unfold fire, removeByConnectionIDAsString. by rewrite Habs. Qed.

Lemma fire_removes m t : handlers (fire m t) !! arg t = None.
Proof.
  unfold fire, removeByConnectionIDAsString.
  destruct (handlers m !! arg t) as [entry|] eqn:Hent; [|done].
  simpl. apply lookup_delete_eq.
Qed.

Lemma fire_keeps_absent m t id :
  handlers m !! id = None → handlers (fire m t) !! id = None.
Proof.
  intros Habs. unfold fire, removeByConnectionIDAsString.
  destruct (handlers m !! arg t) as [entry|] eqn:Hent; [|done].
  destruct (resetToken entry); simpl; apply lookup_delete_None; by right.
Qed.

Lemma foldl_fire_keeps_absent due m id :
  handlers m !! id = None → handlers (foldl fire m due) !! id = None.
Proof.
  revert m. induction due as [|t due IH]; intros m Habs; [done|].
  simpl. by apply IH, fire_keeps_absent.
Qed.

Lemma foldl_fire_removes due m t :
  t ∈ due → handlers (foldl fire m due) !! arg t = None.
Proof.
  revert m. induction due as [|t' due IH]; intros m Hin.
  - by apply elem_of_nil in Hin.
  - apply elem_of_cons in Hin as [->|Hin]; simpl.
    + apply foldl_fire_keeps_absent, fire_removes.
    + by apply IH.
Qed.

Lemma delay_step w o :
  deleteRetiredSessionsAfter (phm (step w o).1) = deleteRetiredSessionsAfter (phm w).
Proof.
  destruct o; simpl; try done.
  - unfold Remove, removeByConnectionIDAsString.
    destruct (handlers (phm w) !! id) as [entry|]; [|done].
    by destruct (resetToken entry).
  - unfold close. by destruct (closed (phm w)).
  - generalize (filter (λ t, when t ≤ clock w + Z.max 0 d) (timers w)).
    intros due. generalize (phm w).
    induction due as [|t due IH]; intros m; [done|].
    simpl. rewrite IH. unfold fire, removeByConnectionIDAsString.
    destruct (handlers m !! arg t) as [entry|]; [|done].
    by destruct (resetToken entry).
Qed.

Lemma delay_run `{P : Protocol} c ops :
  deleteRetiredSessionsAfter (phm (run (newWorld c) ops).1)
  = RetiredConnectionIDDeleteTimeout.
Proof.
  change RetiredConnectionIDDeleteTimeout
    with (deleteRetiredSessionsAfter (phm (newWorld c))).
  generalize (newWorld c). intros w. revert w.
  induction ops as [|o ops IH]; intros w; [done|].
  change (run w (o :: ops))
    with (let '(w1, calls) := step w o in
          let '(w2, calls') := run w1 ops in (w2, calls ++ calls')).
  pose proof (delay_step w o) as H1.
  destruct (step w o) as [w1 calls1].
  specialize (IH w1). destruct (run w1 ops). simpl in *. congruence.
Qed.

(** C9.  In any state reached from the empty registry, [Retire]
    returns with the registry as it was and with exactly one new timer,
    set to the retired-connection-ID timeout from now, for the removal
    of that ID.  The timer stays pending while less than the timeout
    has passed; once it has passed the timer is gone and the ID is not
    registered.  A removal that fires for an ID that is not registered
    returns the registry unchanged. *)
Theorem C9_Retire_schedules_one_delayed_removal `{P : Protocol} c ops id :
  let w := (run (newWorld c) ops).1 in
  let t := {| when := clock w + RetiredConnectionIDDeleteTimeout; arg := id |} in
  let '(w1, calls) := step w (OpRetire id) in
  phm w1 = phm w
  ∧ clock w1 = clock w
  ∧ timers w1 = timers w ++ [t]
  ∧ calls = [EvAfterFunc RetiredConnectionIDDeleteTimeout id]
  ∧ (∀ d, clock w + Z.max 0 d < when t → t ∈ timers (sleep d w1))
  ∧ (∀ d, when t ≤ clock w + Z.max 0 d →
       (t ∉ timers (sleep d w1)) ∧ handlers (phm (sleep d w1)) !! id = None)
  ∧ (∀ m, handlers m !! id = None →
       fire m t = m ∧ removeByConnectionIDAsString id m = m).
Proof.
  intros w t. pose proof (delay_run c ops) as Hdelay. fold w in Hdelay.
  simpl. rewrite Hdelay. fold t.
  split_and!; try done.
  - unfold Retire, retireByConnectionIDAsString. by rewrite Hdelay.
  - intros d Hd. unfold sleep. simpl.
    apply list_elem_of_filter. split; [done|].
    apply elem_of_app. right. by apply list_elem_of_singleton.
  - intros d Hd. unfold sleep. simpl. split.
    + intros [Hlt _]%list_elem_of_filter. simpl in Hlt. lia.
    + apply (foldl_fire_removes _ _ t).
      apply list_elem_of_filter. split; [done|].
      apply elem_of_app. right. by apply list_elem_of_singleton.
  - intros m Habs. split; by apply (fire_absent m t).
Qed.

(** ** The receiver loop *)

Section Loop.
Context `{P : Protocol}.

Lemma handlePacket_lookup_no_panic h iHdr dgram calls rlocked :
  (16 ≤ MinStatelessResetSize)%nat →
  handlePacket_lookup h iHdr dgram ≠ Return calls Panic rlocked.
Proof.
  intros Hmin. unfold handlePacket_lookup.
  destruct (handlers h !! _); [done|].
  destruct (InvariantHeader.IsLongHeader iHdr); simpl.
  { by destruct (server h). }
  case_bool_decide; [|done].
  case_bool_decide; [lia|].
  by destruct (resetTokens h !! _).
Qed.

Lemma handlePacket_no_panic now h addr dgram :
  (16 ≤ MinStatelessResetSize)%nat → fitsInt dgram →
  (handlePacket now h addr dgram).2 ≠ Panic.
Proof.
  intros Hmin Hfit.
  destruct (ParseInvariantHeader dgram (connIDLen h)) as [err|[iHdr n]] eqn:Hiv.
  { unfold handlePacket. replace (unread (NewReader dgram)) with dgram by done.
    by rewrite Hiv. }
  destruct (handlePacket_lookup h iHdr dgram)
    as [deliver sentBy version|calls res rlocked] eqn:Hlk.
  - pose proof (handlePacket_routed now h addr dgram iHdr n _ _ _ Hfit Hiv Hlk) as H.
    destruct (Parse iHdr (drop n dgram) sentBy version) as [err|[hdr k]].
    { by rewrite H. }
    simpl in H. destruct (lengthsOk _ _).
    + by rewrite H.
    + destruct H as (e & _ & ->). done.
  - unfold handlePacket. replace (unread (NewReader dgram)) with dgram by done.
    rewrite Hiv, Hlk. simpl. intros ->.
    by eapply handlePacket_lookup_no_panic.
Qed.

Lemma fitsInt_take (datagram : bytes) :
  Z.of_nat MaxReceivePacketSize + 2 ^ 8 ≤ 2 ^ 63 →
  fitsInt (take MaxReceivePacketSize datagram).
Proof. unfold fitsInt. rewrite length_take. lia. Qed.

(** One turn of the loop on a datagram: the registry is handed on as
    it is, a read lock that was left held is counted, and the loop goes
    on with what is read next. *)
Lemma listen_loop_ReadOk k now addr datagram reads h :
  (16 ≤ MinStatelessResetSize)%nat →
  Z.of_nat MaxReceivePacketSize + 2 ^ 8 ≤ 2 ^ 63 →
  listen_loop k (ReadOk now addr datagram :: reads) h
  = let '(h', calls, st) :=
      listen_loop (if leaks h (ReadOk now addr datagram) then S k else k)
                  reads h in
    (h', dispatch h (ReadOk now addr datagram) ++ calls, st).
Proof.
  intros Hmin Hmax. simpl.
  pose proof (handlePacket_no_panic now h addr
                (take MaxReceivePacketSize datagram) Hmin (fitsInt_take _ Hmax)) as Hnp.
  destruct (handlePacket now h addr (take MaxReceivePacketSize datagram))
    as [calls [|err|]]; simpl in *; [| |done].
  - destruct (listen_loop _ reads h) as [[h' calls'] st]. by rewrite app_nil_r.
  - destruct (listen_loop _ reads h) as [[h' calls'] st]. by rewrite <-app_assoc.
Qed.

(** While the reads succeed the loop keeps reading. *)
Lemma listen_loop_oks k oks h :
  (16 ≤ MinStatelessResetSize)%nat →
  Z.of_nat MaxReceivePacketSize + 2 ^ 8 ≤ 2 ^ 63 →
  Forall isReadOk oks →
  listen_loop k oks h = (h, oks ≫= dispatch h, Reading).
Proof.
  intros Hmin Hmax Hoks. revert k.
  induction Hoks as [|[now addr datagram|err] oks [] _ IH]; intros k; [done|].
  rewrite listen_loop_ReadOk, IH by done. by rewrite bind_cons.
Qed.

(** At the first read that fails the loop calls [close], which
    returns if no read lock is held and waits for ever if one is. *)
Lemma listen_loop_ReadErr k oks err rest h :
  (16 ≤ MinStatelessResetSize)%nat →
  Z.of_nat MaxReceivePacketSize + 2 ^ 8 ≤ 2 ^ 63 →
  Forall isReadOk oks →
  listen_loop k (oks ++ ReadErr err :: rest) h
  = match rlocksAfter h k oks with
    | O => let '(h1, calls, _) := close err h in
           (h1, (oks ≫= dispatch h) ++ calls, Returned)
    | S _ => (h, oks ≫= dispatch h, Blocked)
    end.
Proof.
  intros Hmin Hmax Hoks. revert k.
  induction Hoks as [|[now addr datagram|err'] oks [] _ IH]; intros k.
  - simpl. destruct k; [|done]. by destruct (close err h) as [[h1 calls] res].
  - rewrite <-app_comm_cons, listen_loop_ReadOk, IH by done.
    change (rlocksAfter h k (ReadOk now addr datagram :: oks))
      with (rlocksAfter h (if leaks h (ReadOk now addr datagram) then S k else k)
              oks).
    rewrite bind_cons.
    destruct (rlocksAfter h _ oks); [|done].
    destruct (close err h) as [[h1 calls] res]. by rewrite <-app_assoc.
Qed.

Lemma rlocksAfter_S h k reads :
  rlocksAfter h (S k) reads = S (rlocksAfter h k reads).
Proof.
  unfold rlocksAfter. revert k.
  induction reads as [|r reads IH]; intros k; [done|].
  simpl. destruct (leaks h r); by rewrite IH.
Qed.

Lemma rlocksAfter_none h reads :
  Forall (λ r, leaks h r = false) reads → rlocksAfter h 0 reads = 0%nat.
Proof.
  unfold rlocksAfter. induction 1 as [|r reads Hr _ IH]; [done|].
  simpl. by rewrite Hr.
Qed.

Lemma rlocksAfter_some h k reads :
  Exists (λ r, leaks h r = true) reads → ∃ n, rlocksAfter h k reads = S n.
Proof.
  intros Hex. revert k. induction Hex as [r reads Hr|r reads _ IH]; intros k.
  - unfold rlocksAfter. simpl. rewrite Hr.
    fold (rlocksAfter h (S k) reads). rewrite rlocksAfter_S. by eexists.
  - unfold rlocksAfter. simpl. destruct (leaks h r); apply IH.
Qed.

End Loop.

(** * The model at work *)

(** C1 as stated fails: the datagram names the registered [idA], the
    full parse fails, and nothing is delivered to the handler. *)
Lemma C1_counterexample :
  let dgram := [x40; x0a; x01] in
  handlers (withA truncatedToA) !! idA
  = Some {| handler := hS; resetToken := None |}
  ∧ ParseInvariantHeader (Protocol := truncatedToA) dgram 2 = inr (shortTo idA, 3%nat)
  ∧ InvariantHeader.DestConnectionID (shortTo idA) = idA
  ∧ handlePacket (P := truncatedToA) 0 (withA truncatedToA) "peer" dgram
    = ([], Error (ErrParsingHeader (ErrExternal "EOF")))
  ∧ ¬ ∃ p, EvHandlePacket hS p
           ∈ (handlePacket (P := truncatedToA) 0 (withA truncatedToA) "peer" dgram).1.
Proof.
  split_and!; [by vm_compute..|].
  intros [p Hin]. vm_compute in Hin. by apply elem_of_nil in Hin.
Qed.

(** A short-header datagram for [idA] reaches [hS], and only [hS]. *)
Lemma C1_witness :
  let dgram := [x40; x0a; x01; x07; x61; x62] in
  handlePacket (P := shortToA) 0 (withA shortToA) "peer" dgram
  = ([EvHandlePacket hS
        {| remoteAddr := "peer";
           header := Header.setRaw [x40; x0a; x01; x07] (scriptHeader false 0 1);
           data := [x61; x62]; rcvTime := 0 |}], Nil).
Proof.
  intros dgram.
  apply (C1_registered_id_reaches_only_its_handler (P := shortToA)
           0 (withA shortToA) "peer" dgram idA {| handler := hS; resetToken := None |}
           (shortTo idA) 3%nat).
  - unfold fitsInt. simpl. lia.
  - by vm_compute.
  - reflexivity.
  - reflexivity.
Defined.

(** Forty-two bytes for the unknown [idX] that end in [tokA]. *)
Lemma C4_witness :
  let dgram := replicate 26 x00 ++ tokA in
  handlePacket (P := shortToX) 0 (withTokenA shortToX) "peer" dgram
  = ([EvDestroy hS ErrStatelessReset], Nil).
Proof.
  intros dgram.
  apply (C4_stateless_reset_destroys_once (P := shortToX)
           0 (withTokenA shortToX) "peer" dgram (shortTo idX) 3%nat (replicate 26 x00) tokA hS).
  - reflexivity.
  - reflexivity.
  - by vm_compute.
  - simpl. lia.
  - reflexivity.
  - reflexivity.
  - by vm_compute.
Defined.

(** C5 as stated fails: declared length 5, packet number of 2 bytes,
    and only 4 bytes captured after the header, fewer than declared;
    the packet is delivered all the same, with a payload of 3 bytes. *)
Lemma C5_counterexample :
  let dgram := replicate 10 x00 ++ [x61; x62; x63; x64] in
  Parse (Protocol := longToA) (longTo idA) (drop 7 dgram) PerspectiveClient 1
  = inr (scriptHeader true 5 2, 3%nat)
  ∧ Z.of_nat (length (drop (7 + 3) dgram)) < Header.Length (scriptHeader true 5 2)
  ∧ handlePacket (P := longToA) 0 (withA longToA) "peer" dgram
    = ([EvHandlePacket hS
          {| remoteAddr := "peer";
             header := Header.setRaw (replicate 10 x00) (scriptHeader true 5 2);
             data := [x61; x62; x63]; rcvTime := 0 |}], Nil).
Proof. split_and!; by vm_compute. Qed.

(** The same datagram, read through the amended statement. *)
Lemma C5_witness :
  let dgram := replicate 10 x00 ++ [x61; x62; x63; x64] in
  ∃ p, handlePacket (P := longToA) 0 (withA longToA) "peer" dgram
       = ([EvHandlePacket hS p], Nil)
       ∧ Z.of_nat (length (data p)) = 5 - 2
       ∧ data p `prefix_of` [x61; x62; x63; x64].
Proof.
  intros dgram.
  refine (proj1 (C5_long_header_payload (P := longToA)
            0 (withA longToA) "peer" dgram (longTo idA) 7%nat (EvHandlePacket hS)
            PerspectiveClient 1 (scriptHeader true 5 2) 3%nat _ _ _ _ _) _).
  - unfold fitsInt. simpl. lia.
  - reflexivity.
  - by vm_compute.
  - reflexivity.
  - reflexivity.
  - by vm_compute.
Defined.

(** Nineteen bytes that end in the registered [tokA]: too short for
    a stateless reset. *)
Lemma C10_witness :
  let dgram := [x40; x0c; x03] ++ tokA in
  resetTokens (withTokenA shortToX) !! drop (length dgram - 16) dgram
  = Some hS
  ∧ handlePacket (P := shortToX) 0 (withTokenA shortToX) "peer" dgram
    = ([], Error (ErrShortHeaderUnexpectedConnID idX)).
Proof.
  intros dgram. split; [by vm_compute|].
  apply (C10_short_datagram_never_resets (P := shortToX)
           0 (withTokenA shortToX) "peer" dgram (shortTo idX) 3%nat).
  - reflexivity.
  - reflexivity.
  - by vm_compute.
  - simpl. lia.
Defined.

(** C2 as stated fails: [Add] over an entry that carries a token
    leaves the token in the index, owned by no entry. *)
Lemma C2_counterexample :
  let m := phm (run (newWorld (P := shortToA) 2)
                    [OpAddWithResetToken idA hS tokA; OpAdd idA hC]).1 in
  resetTokens m !! tokA = Some hS
  ∧ handlers m = {[ idA := {| handler := hC; resetToken := None |} ]}
  ∧ ¬ tokensOwned m.
Proof.
  intros m.
  assert (handlers m = {[ idA := {| handler := hC; resetToken := None |} ]}) as Hm
    by by vm_compute.
  split_and!; [by vm_compute|done|].
  intros Hown. destruct (Hown tokA) as (id & (entry & Hent & Htok) & _).
  { exists hS. by vm_compute. }
  rewrite Hm in Hent. apply lookup_singleton_Some in Hent as [_ <-]. done.
Qed.

(** A run without collisions, with a retirement that fires. *)
Lemma C2_witness :
  collisionFreeRun (newWorld (P := shortToA) 2) quietRun = true
  ∧ tokensOwned (phm (run (newWorld (P := shortToA) 2) quietRun).1).
Proof.
  split; [by vm_compute|].
  apply (C2_index_tokens_have_one_owner (P := shortToA) 2 quietRun).
  by vm_compute.
Defined.

(** C3 as stated fails: a handler registered under two connection IDs
    has [destroy] called twice by one [close]. *)
Lemma C3_counterexample :
  closed (twiceS shortToA) = false
  ∧ handlers (twiceS shortToA) !! idA = Some {| handler := hS; resetToken := None |}
  ∧ handlers (twiceS shortToA) !! idB = Some {| handler := hS; resetToken := None |}
  ∧ destroyCalls hS (close (ErrExternal "read") (twiceS shortToA)).1.2 = 2%nat.
Proof. split_and!; by vm_compute. Qed.

(** The second [close] of the same registry does nothing. *)
Lemma C3_witness :
  closed (twiceS shortToA) = false
  ∧ let '(m1, calls, res) := close (ErrExternal "read") (twiceS shortToA) in
    close (ErrExternal "again") m1 = (m1, [], Nil).
Proof.
  split; [reflexivity|].
  pose proof (C3_close_once_per_entry_then_inert
                (ErrExternal "read") (ErrExternal "again") (twiceS shortToA)
                eq_refl) as H.
  destruct (close (ErrExternal "read") (twiceS shortToA)) as [[m1 calls] res].
  apply H.
Defined.

(** C6 as stated fails: after [close], [Add] and [AddWithResetToken]
    still put a new entry, and a new token, into the closed registry. *)
Lemma C6_counterexample :
  let m1 := (close (ErrExternal "read") (newPacketHandlerMap (P := shortToA) 2)).1.1 in
  closed m1 = true
  ∧ handlers m1 !! idA = None
  ∧ resetTokens m1 !! tokA = None
  ∧ handlers (Add idA hS m1) !! idA = Some {| handler := hS; resetToken := None |}
  ∧ closed (AddWithResetToken idA hS tokA m1) = true
  ∧ resetTokens (AddWithResetToken idA hS tokA m1) !! tokA = Some hS.
Proof. split_and!; by vm_compute. Qed.

(** The entry registered when [close] is called is destroyed. *)
Lemma C6_witness :
  closed (withA shortToA) = false
  ∧ EvDestroy hS (ErrExternal "read")
    ∈ (close (ErrExternal "read") (withA shortToA)).1.2.
Proof.
  split; [reflexivity|].
  refine (proj1 (proj2 (C6_closed_is_final_but_does_not_stop_Add
                          (ErrExternal "read") (withA shortToA) eq_refl))
                idA {| handler := hS; resetToken := None |} _).
  by vm_compute.
Defined.

(** C7 as stated fails: a server-side handler registered under two
    connection IDs has [Close] called twice by one [CloseServer]. *)
Lemma C7_counterexample :
  GetPerspective hS = PerspectiveServer
  ∧ handlers (twiceS shortToA) !! idA = Some {| handler := hS; resetToken := None |}
  ∧ handlers (twiceS shortToA) !! idB = Some {| handler := hS; resetToken := None |}
  ∧ closeCalls hS (CloseServer (twiceS shortToA)).2 = 2%nat.
Proof. split_and!; by vm_compute. Qed.

(** C8, on the code.  The loop reads a short-header datagram for a
    connection ID that is not registered, too short for a stateless
    reset, and then a read fails.  [handlePacket] returns the error of
    line 199 with the read lock still held; the loop logs it and reads
    on.  At the read error [close] is called but waits for ever in
    [h.mutex.Lock()]: no handler is destroyed, the registry is not
    marked closed, and the loop never returns, where the same [close]
    on a free mutex returns at once. *)
Theorem C8_read_error_after_a_dropped_datagram_blocks :
  let h := withA shortToX in
  let stray := [x40; x0c; x03] in
  handlePacket (P := shortToX) 1 h "peer" stray
  = ([], Error (ErrShortHeaderUnexpectedConnID idX))
  ∧ leavesRLocked (P := shortToX) h stray = true
  ∧ listen (P := shortToX)
      [ReadOk 1 "peer" stray; ReadErr (ErrExternal "closed")] h
    = (h, [EvDebugf "peer" (ErrShortHeaderUnexpectedConnID idX)], Blocked)
  ∧ close (ErrExternal "closed") h
    = (set_closed true h, [EvDestroy hS (ErrExternal "closed")], Nil).
Proof. split_and!; by vm_compute. Qed.

(** * Further properties of the dispatcher *)

Section DispatcherCases.
Context `{P : Protocol}.

(** [handlePacket] with the reader taken out: what is parsed and what
    is handed on, as pieces of the datagram. *)
Lemma handlePacket_eq now h addr dgram :
  handlePacket now h addr dgram
  = match ParseInvariantHeader dgram (connIDLen h) with
    | inl err => ([], Error (ErrInvariantHeader err))
    | inr (iHdr, n) =>
        match handlePacket_lookup h iHdr dgram with
        | Return calls res _ => (calls, res)
        | Deliver deliver sentBy version =>
            match Parse iHdr (drop n dgram) sentBy version with
            | inl err => ([], Error (ErrParsingHeader err))
            | inr (hdr, k) =>
                let hdr := Header.setRaw (take (n + k) dgram) hdr in
                match handlePacket_truncate hdr (drop (n + k) dgram) with
                | inl res => ([], res)
                | inr packetData =>
                    ([deliver {| remoteAddr := addr; header := hdr;
                                 data := packetData; rcvTime := now |}], Nil)
                end
            end
        end
    end.
Proof.
  unfold handlePacket. replace (unread (NewReader dgram)) with dgram by done.
  destruct (ParseInvariantHeader dgram (connIDLen h)) as [err|[iHdr n]]; [done|].
  destruct (handlePacket_lookup h iHdr dgram) as [deliver sentBy version|]; [|done].
  rewrite unread_advance.
  destruct (Parse iHdr (drop n dgram) sentBy version) as [err|[hdr k]]; [done|].
  by rewrite consumed_advance, take_min_length, drop_min_length.
Qed.

Lemma handlePacket_truncate_inl hdr packetData res :
  handlePacket_truncate hdr packetData = inl res → res ≠ Nil.
Proof.
  unfold handlePacket_truncate.
  destruct (Header.IsLongHeader hdr); [|done].
  repeat case_bool_decide; by intros [= <-].
Qed.

Lemma handlePacket_truncate_inr hdr packetData out :
  handlePacket_truncate hdr packetData = inr out →
  out `prefix_of` packetData
  ∧ (Header.IsLongHeader hdr = false → out = packetData).
Proof.
  unfold handlePacket_truncate.
  destruct (Header.IsLongHeader hdr).
  - repeat case_bool_decide; intros [= <-]. split; [apply prefix_take|done].
  - by intros [= <-].
Qed.

(** When the lookup returns at once: the connection ID is unknown,
    and either this is a stateless reset or nobody is called. *)
Lemma handlePacket_lookup_Return h iHdr dgram calls res rlocked :
  handlePacket_lookup h iHdr dgram = Return calls res rlocked →
  handlers h !! InvariantHeader.DestConnectionID iHdr = None
  ∧ ((calls = [] ∧ res ≠ Nil)
     ∨ (InvariantHeader.IsLongHeader iHdr = false
        ∧ (MinStatelessResetSize ≤ length dgram)%nat
        ∧ (16 ≤ length dgram)%nat
        ∧ res = Nil
        ∧ ∃ hd, resetTokens h !! drop (length dgram - 16) dgram = Some hd
                ∧ calls = [EvDestroy hd ErrStatelessReset])).
Proof.
  unfold handlePacket_lookup.
  destruct (handlers h !! _); [done|]. split; [done|].
  destruct (InvariantHeader.IsLongHeader iHdr); simpl in *.
  { destruct (server h); [done|]. injection H as <- <-. by left. }
  case_bool_decide as Hmin; [|injection H as <- <-; by left].
  case_bool_decide as H16; [injection H as <- <-; by left|].
  destruct (resetTokens h !! _) as [hd|] eqn:Hidx; injection H as <- <-.
  - right. split_and!; [done|done|lia|done|]. by exists hd.
  - by left.
Qed.

(** When the lookup goes on to deliver: to the handler registered
    under the connection ID, or, for an unknown ID under a long header,
    to the server. *)
Lemma handlePacket_lookup_Deliver h iHdr dgram deliver sentBy version :
  handlePacket_lookup h iHdr dgram = Deliver deliver sentBy version →
  (∃ entry, handlers h !! InvariantHeader.DestConnectionID iHdr = Some entry
            ∧ deliver = EvHandlePacket (handler entry)
            ∧ sentBy = Opposite (GetPerspective (handler entry))
            ∧ version = GetVersion (handler entry))
  ∨ (handlers h !! InvariantHeader.DestConnectionID iHdr = None
     ∧ InvariantHeader.IsLongHeader iHdr = true
     ∧ ∃ srv, server h = Some srv
              ∧ deliver = EvServerHandlePacket srv
              ∧ sentBy = PerspectiveClient
              ∧ version = InvariantHeader.Version iHdr).
Proof.
  unfold handlePacket_lookup.
  destruct (handlers h !! _) as [entry|].
  { intros [= <- <- <-]. left. by exists entry. }
  destruct (InvariantHeader.IsLongHeader iHdr); simpl.
  - destruct (server h) as [srv|]; [|done].
    intros [= <- <- <-]. right. split_and!; [done..|]. by exists srv.
  - repeat case_bool_decide; try done. by destruct (resetTokens h !! _).
Qed.

(** X1.  A datagram whose invariant header does not parse is dropped
    with that error before anything is looked up: nobody is called,
    whatever handlers, tokens and server the registry holds. *)
Theorem X1_unparsable_datagram_is_dropped now h addr dgram err :
  ParseInvariantHeader dgram (connIDLen h) = inl err →
  ∀ handlers' tokens' server',
    handlePacket now
      (set_server server'
         (set_resetTokens (λ _, tokens') (set_handlers (λ _, handlers') h)))
      addr dgram
    = ([], Error (ErrInvariantHeader err)).
Proof.
  intros Hiv handlers' tokens' server'. rewrite handlePacket_eq. simpl.
  by rewrite Hiv.
Qed.

(** X2.  A long-header datagram (of a length that fits an [int]) for
    a connection ID that is not registered, with a server set: the rest
    of the header is parsed as sent by a client, under the version of
    the invariant header.  If that parse and the length checks pass the
    only call is [handlePacket] on the server; if not, nobody is called
    and the error is returned. *)
Theorem X2_unknown_long_header_goes_to_server
    now h addr dgram iHdr n srv :
  fitsInt dgram →
  ParseInvariantHeader dgram (connIDLen h) = inr (iHdr, n) →
  InvariantHeader.IsLongHeader iHdr = true →
  handlers h !! InvariantHeader.DestConnectionID iHdr = None →
  server h = Some srv →
  match Parse iHdr (drop n dgram) PerspectiveClient (InvariantHeader.Version iHdr) with
  | inl err =>
      handlePacket now h addr dgram = ([], Error (ErrParsingHeader err))
  | inr (hdr, k) =>
      let hdr := Header.setRaw (take (n + k) dgram) hdr in
      let packetData := drop (n + k) dgram in
      if lengthsOk hdr packetData then
        handlePacket now h addr dgram
        = ([EvServerHandlePacket srv
              {| remoteAddr := addr; header := hdr;
                 data := payload hdr packetData; rcvTime := now |}], Nil)
      else
        ∃ e, isLengthMismatch e = true
             ∧ handlePacket now h addr dgram = ([], Error e)
  end.
Proof.
  intros Hfit Hiv Hlong Hmiss Hsrv.
  apply (handlePacket_routed now h addr dgram iHdr n _ _ _ Hfit Hiv).
  unfold handlePacket_lookup. by rewrite Hmiss, Hlong, Hsrv.
Qed.

(** X3.  Nothing is misrouted: a handler is called with a packet only
    if it is registered under the destination connection ID of the
    datagram, and the server only if that ID is not registered, the
    header is long and this is the server that is set. *)
Theorem X3_deliveries_follow_the_registry now h addr dgram :
  (∀ hd p, EvHandlePacket hd p ∈ (handlePacket now h addr dgram).1 →
     ∃ iHdr n entry,
       ParseInvariantHeader dgram (connIDLen h) = inr (iHdr, n)
       ∧ handlers h !! InvariantHeader.DestConnectionID iHdr = Some entry
       ∧ handler entry = hd)
  ∧ (∀ srv p, EvServerHandlePacket srv p ∈ (handlePacket now h addr dgram).1 →
       ∃ iHdr n,
         ParseInvariantHeader dgram (connIDLen h) = inr (iHdr, n)
         ∧ InvariantHeader.IsLongHeader iHdr = true
         ∧ handlers h !! InvariantHeader.DestConnectionID iHdr = None
         ∧ server h = Some srv).
Proof.
  rewrite handlePacket_eq.
  destruct (ParseInvariantHeader dgram (connIDLen h)) as [err|[iHdr n]] eqn:Hiv.
  { split; intros ?? Hin; by apply elem_of_nil in Hin. }
  destruct (handlePacket_lookup h iHdr dgram) as [deliver sentBy version|calls res rlocked]
    eqn:Hlk.
  - assert (∀ ev, ev ∈ (match Parse iHdr (drop n dgram) sentBy version with
                        | inl err => ([], Error (ErrParsingHeader err))
                        | inr (hdr, k) =>
                            let hdr := Header.setRaw (take (n + k) dgram) hdr in
                            match handlePacket_truncate hdr (drop (n + k) dgram) with
                            | inl res => ([], res)
                            | inr packetData =>
                                ([deliver {| remoteAddr := addr; header := hdr;
                                             data := packetData; rcvTime := now |}],
                                 Nil)
                            end
                        end).1 → ∃ p, ev = deliver p) as Hin.
    { intros ev. destruct (Parse _ _ _ _) as [err|[hdr k]]; simpl.
      { by intros ?%elem_of_nil. }
      destruct (handlePacket_truncate _ _); simpl.
      { by intros ?%elem_of_nil. }
      intros ->%list_elem_of_singleton. by eexists. }
    apply handlePacket_lookup_Deliver in Hlk
      as [(entry & Hent & -> & _)|(Hmiss & Hlong & srv & Hsrv & -> & _)].
    + split.
      * intros hd p [p' [= -> _]]%Hin. by exists iHdr, n, entry.
      * by intros srv p [p' [=]]%Hin.
    + split.
      * by intros hd p [p' [=]]%Hin.
      * intros srv' p [p' [= -> _]]%Hin. by exists iHdr, n.
  - apply handlePacket_lookup_Return in Hlk
      as [_ [[-> _]|(_ & _ & _ & _ & hd & _ & ->)]]; simpl.
    + split; intros ?? Hin; by apply elem_of_nil in Hin.
    + split; by intros ?? [=]%list_elem_of_singleton.
Qed.

(** X4.  A short-header datagram for an unknown connection ID, long
    enough for a stateless reset, whose last 16 bytes are no token of
    the index, is dropped with the unknown-connection-ID error: nobody
    is called. *)
Theorem X4_unknown_token_is_dropped now h addr dgram iHdr n :
  ParseInvariantHeader dgram (connIDLen h) = inr (iHdr, n) →
  InvariantHeader.IsLongHeader iHdr = false →
  handlers h !! InvariantHeader.DestConnectionID iHdr = None →
  (MinStatelessResetSize ≤ length dgram)%nat →
  (16 ≤ length dgram)%nat →
  resetTokens h !! drop (length dgram - 16) dgram = None →
  handlePacket now h addr dgram
  = ([], Error (ErrShortHeaderUnexpectedConnID
                  (InvariantHeader.DestConnectionID iHdr))).
Proof.
  intros Hiv Hshort Hmiss Hmin H16 Hidx.
  rewrite handlePacket_eq, Hiv. unfold handlePacket_lookup.
  rewrite Hmiss, Hshort. simpl.
  rewrite bool_decide_eq_true_2 by done.
  rewrite bool_decide_eq_false_2 by lia.
  by rewrite Hidx.
Qed.

(** X5.  [destroy] is called by the dispatcher only for a stateless
    reset: the header is short, the connection ID is unknown, the
    datagram is long enough, and the handler is the one the index
    holds for its last 16 bytes.  It is then the only call, the error
    is the stateless-reset error, and the result is nil. *)
Theorem X5_destroy_only_on_stateless_reset now h addr dgram hd e :
  EvDestroy hd e ∈ (handlePacket now h addr dgram).1 →
  ∃ iHdr n,
    ParseInvariantHeader dgram (connIDLen h) = inr (iHdr, n)
    ∧ InvariantHeader.IsLongHeader iHdr = false
    ∧ handlers h !! InvariantHeader.DestConnectionID iHdr = None
    ∧ (MinStatelessResetSize ≤ length dgram)%nat
    ∧ (16 ≤ length dgram)%nat
    ∧ resetTokens h !! drop (length dgram - 16) dgram = Some hd
    ∧ handlePacket now h addr dgram = ([EvDestroy hd ErrStatelessReset], Nil).
Proof.
  rewrite handlePacket_eq.
  destruct (ParseInvariantHeader dgram (connIDLen h)) as [err|[iHdr n]] eqn:Hiv.
  { by intros ?%elem_of_nil. }
  destruct (handlePacket_lookup h iHdr dgram) as [deliver sentBy version|calls res rlocked]
    eqn:Hlk.
  - intros Hin. exfalso.
    destruct (Parse _ _ _ _) as [err|[hdr k]]; simpl in Hin.
    { by apply elem_of_nil in Hin. }
    destruct (handlePacket_truncate _ _); simpl in Hin.
    { by apply elem_of_nil in Hin. }
    apply list_elem_of_singleton in Hin.
    apply handlePacket_lookup_Deliver in Hlk
      as [(entry & _ & -> & _)|(_ & _ & srv & _ & -> & _)]; done.
  - apply handlePacket_lookup_Return in Hlk
      as [Hmiss [[-> _]|(Hshort & Hmin & H16 & -> & hd' & Hidx & ->)]]; simpl.
    { by intros ?%elem_of_nil. }
    intros [= <- <-]%list_elem_of_singleton. by exists iHdr, n.
Qed.

(** X6.  One datagram, at most one call: when [handlePacket] returns
    nil it has made exactly one call, and when it returns an error, or
    panics, it has made none. *)
Theorem X6_nil_means_one_call_error_means_none now h addr dgram :
  match (handlePacket now h addr dgram).2 with
  | Nil => ∃ ev, (handlePacket now h addr dgram).1 = [ev]
  | _ => (handlePacket now h addr dgram).1 = []
  end.
Proof.
  rewrite handlePacket_eq.
  destruct (ParseInvariantHeader dgram (connIDLen h)) as [err|[iHdr n]]; [done|].
  destruct (handlePacket_lookup h iHdr dgram) as [deliver sentBy version|calls res rlocked]
    eqn:Hlk.
  - destruct (Parse _ _ _ _) as [err|[hdr k]]; [done|]. simpl.
    destruct (handlePacket_truncate _ _) as [res|packetData] eqn:Htr; simpl.
    + apply handlePacket_truncate_inl in Htr. by destruct res.
    + by eexists.
  - apply handlePacket_lookup_Return in Hlk
      as [_ [[-> Hres]|(_ & _ & _ & -> & hd & _ & ->)]]; simpl.
    + by destruct res.
    + by eexists.
Qed.

(** X7.  What is delivered is the datagram: the packet handed to a
    handler or to the server carries the sender and the receive time of
    the call, and its header bytes followed by its payload are a prefix
    of the datagram, the whole datagram if the header is short. *)
Theorem X7_delivered_packet_is_the_datagram now h addr dgram ev p :
  ev ∈ (handlePacket now h addr dgram).1 →
  packetOf ev = Some p →
  remoteAddr p = addr
  ∧ rcvTime p = now
  ∧ bytesOf p `prefix_of` dgram
  ∧ (Header.IsLongHeader (header p) = false → bytesOf p = dgram).
Proof.
  rewrite handlePacket_eq.
  destruct (ParseInvariantHeader dgram (connIDLen h)) as [err|[iHdr n]].
  { by intros ?%elem_of_nil. }
  destruct (handlePacket_lookup h iHdr dgram) as [deliver sentBy version|calls res rlocked]
    eqn:Hlk.
  - destruct (Parse _ _ _ _) as [err|[hdr k]]; simpl.
    { by intros ?%elem_of_nil. }
    destruct (handlePacket_truncate _ _) as [res|packetData] eqn:Htr; simpl.
    { by intros ?%elem_of_nil. }
    intros ->%list_elem_of_singleton Hp.
    apply handlePacket_truncate_inr in Htr as [Hpre Hshort].
    assert (p = {| remoteAddr := addr;
                   header := Header.setRaw (take (n + k) dgram) hdr;
                   data := packetData; rcvTime := now |}) as ->.
    { apply handlePacket_lookup_Deliver in Hlk
        as [(entry & _ & -> & _)|(_ & _ & srv & _ & -> & _)];
        simpl in Hp; congruence. }
    unfold bytesOf. simpl. split_and!; [done|done| |].
    + rewrite <-(take_drop (n + k) dgram) at 2. by apply prefix_app.
    + intros Hs. rewrite (Hshort Hs). apply take_drop.
  - apply handlePacket_lookup_Return in Hlk
      as [_ [[-> _]|(_ & _ & _ & _ & hd & _ & ->)]]; simpl.
    + by intros ?%elem_of_nil.
    + by intros ->%list_elem_of_singleton.
Qed.

(** X8.  A registry that was just made holds nothing: whatever the
    datagram, nobody is called and the result is not nil. *)
Theorem X8_fresh_registry_calls_nobody c now addr dgram :
  (handlePacket now (newPacketHandlerMap c) addr dgram).1 = []
  ∧ (handlePacket now (newPacketHandlerMap c) addr dgram).2 ≠ Nil.
Proof.
  rewrite handlePacket_eq.
  destruct (ParseInvariantHeader dgram _) as [err|[iHdr n]]; [done|].
  unfold handlePacket_lookup. simpl. rewrite lookup_empty.
  destruct (InvariantHeader.IsLongHeader iHdr); simpl; [done|].
  repeat case_bool_decide; rewrite ?lookup_empty; done.
Qed.

(** X9.  The dispatcher does not panic on a datagram of a length
    that fits an [int], provided the one that reaches the reset-size
    threshold has the 16 bytes of a token. *)
Theorem X9_handlePacket_does_not_panic now h addr dgram :
  (MinStatelessResetSize ≤ length dgram → 16 ≤ length dgram)%nat →
  fitsInt dgram →
  (handlePacket now h addr dgram).2 ≠ Panic.
Proof.
  intros H16 Hfit.
  destruct (ParseInvariantHeader dgram (connIDLen h)) as [err|[iHdr n]] eqn:Hiv.
  { by rewrite handlePacket_eq, Hiv. }
  destruct (handlePacket_lookup h iHdr dgram) as [deliver sentBy version|calls res rlocked]
    eqn:Hlk.
  - pose proof (handlePacket_routed now h addr dgram iHdr n _ _ _ Hfit Hiv Hlk) as H.
    destruct (Parse iHdr (drop n dgram) sentBy version) as [err|[hdr k]].
    { by rewrite H. }
    simpl in H. destruct (lengthsOk _ _).
    + by rewrite H.
    + destruct H as (e & _ & ->). done.
  - rewrite handlePacket_eq, Hiv, Hlk. simpl. intros ->.
    revert Hlk. unfold handlePacket_lookup.
    destruct (handlers h !! _); [done|].
    destruct (InvariantHeader.IsLongHeader iHdr); simpl.
    { by destruct (server h). }
    case_bool_decide; [|done].
    case_bool_decide; [lia|].
    by destruct (resetTokens h !! _).
Qed.

(** X10.  Registering with a token arms the reset: after
    [AddWithResetToken id hd tok], a short-header datagram for another,
    unknown connection ID that is long enough and ends in [tok] has
    [destroy] called on [hd], whatever the index held for [tok]
    before. *)
Theorem X10_AddWithResetToken_arms_the_reset
    now m addr dgram iHdr n id hd front tok :
  ParseInvariantHeader dgram (connIDLen m) = inr (iHdr, n) →
  InvariantHeader.IsLongHeader iHdr = false →
  InvariantHeader.DestConnectionID iHdr ≠ id →
  handlers m !! InvariantHeader.DestConnectionID iHdr = None →
  (MinStatelessResetSize ≤ length dgram)%nat →
  dgram = front ++ tok →
  length tok = 16%nat →
  handlePacket now (AddWithResetToken id hd tok m) addr dgram
  = ([EvDestroy hd ErrStatelessReset], Nil).
Proof.
  intros Hiv Hshort Hne Hmiss Hmin -> Htok.
  rewrite handlePacket_eq. simpl. rewrite Hiv. unfold handlePacket_lookup. simpl.
  rewrite lookup_insert_ne by done. rewrite Hmiss, Hshort. simpl.
  rewrite bool_decide_eq_true_2 by done.
  rewrite length_app, Htok.
  rewrite bool_decide_eq_false_2 by lia.
  replace (length front + 16 - 16)%nat with (length front) by lia.
  by rewrite drop_app_length, lookup_insert_eq.
Qed.

(** X11.  [Remove] makes both the connection ID and its token
    unknown: afterwards a short-header datagram for the removed ID is
    dropped with the unknown-connection-ID error, and nobody is called,
    even when it ends in the token the entry carried. *)
Theorem X11_removed_id_and_token_are_unknown
    now m addr dgram iHdr n id entry front tok :
  handlers m !! id = Some entry →
  resetToken entry = Some tok →
  length tok = 16%nat →
  ParseInvariantHeader dgram (connIDLen m) = inr (iHdr, n) →
  InvariantHeader.IsLongHeader iHdr = false →
  InvariantHeader.DestConnectionID iHdr = id →
  dgram = front ++ tok →
  handlePacket now (Remove id m) addr dgram
  = ([], Error (ErrShortHeaderUnexpectedConnID id)).
Proof.
  intros Hent Htok Hlen Hiv Hshort <- ->.
  unfold Remove, removeByConnectionIDAsString. rewrite Hent, Htok.
  rewrite handlePacket_eq. simpl. rewrite Hiv. unfold handlePacket_lookup. simpl.
  rewrite lookup_delete_eq, Hshort. simpl.
  case_bool_decide; [|done].
  rewrite length_app, Hlen.
  rewrite bool_decide_eq_false_2 by lia.
  replace (length front + 16 - 16)%nat with (length front) by lia.
  by rewrite drop_app_length, lookup_delete_eq.
Qed.

End DispatcherCases.

(** * Further properties of the registry *)

(** X12.  [Remove] touches one entry and one token.  Every other
    connection ID keeps its entry, every token other than the one of
    the removed entry stays in the index, and the server, the closed
    flag and the settings are as before.  Removing an ID that is not
    registered changes nothing, and so does removing twice. *)
Theorem X12_Remove_is_local_and_idempotent m id :
  (∀ id', id' ≠ id → handlers (Remove id m) !! id' = handlers m !! id')
  ∧ (∀ tok, (∀ entry, handlers m !! id = Some entry → resetToken entry ≠ Some tok) →
       resetTokens (Remove id m) !! tok = resetTokens m !! tok)
  ∧ server (Remove id m) = server m
  ∧ closed (Remove id m) = closed m
  ∧ connIDLen (Remove id m) = connIDLen m
  ∧ deleteRetiredSessionsAfter (Remove id m) = deleteRetiredSessionsAfter m
  ∧ (handlers m !! id = None → Remove id m = m)
  ∧ Remove id (Remove id m) = Remove id m.
Proof.
  unfold Remove, removeByConnectionIDAsString.
  destruct (handlers m !! id) as [entry|] eqn:Hent.
  - destruct (resetToken entry) as [token|] eqn:Htok; simpl;
      rewrite ?lookup_delete_eq; split_and!; try done.
    + intros id' Hne. by rewrite lookup_delete_ne.
    + intros tok Hother. rewrite lookup_delete_ne; [done|].
      intros <-. by eapply Hother.
    + intros id' Hne. by rewrite lookup_delete_ne.
  - rewrite Hent. done.
Qed.

(** X13.  Adding a connection ID that is free and removing it again
    gives back the registry as it was, and so with a token that the
    index did not hold. *)
Theorem X13_Add_then_Remove_restores m id hd tok :
  handlers m !! id = None →
  Remove id (Add id hd m) = m
  ∧ (resetTokens m !! tok = None →
     Remove id (AddWithResetToken id hd tok m) = m).
Proof.
  intros Hfree. unfold Remove, removeByConnectionIDAsString. simpl.
  rewrite !lookup_insert_eq. simpl. split.
  - destruct m; simpl in *. unfold set_handlers. simpl.
    by rewrite delete_insert_id.
  - intros Hnew. destruct m; simpl in *. unfold set_handlers, set_resetTokens. simpl.
    by rewrite !delete_insert_id.
Qed.

(** X14.  The last write wins: a second [Add], or
    [AddWithResetToken] with the same token, under the same connection
    ID leaves only what the second one wrote.  [Add] over an entry with
    a token does not clean the index: the token stays, with the handler
    of the overwritten entry. *)
Theorem X14_last_write_wins m id hd1 hd2 tok :
  Add id hd2 (Add id hd1 m) = Add id hd2 m
  ∧ AddWithResetToken id hd2 tok (AddWithResetToken id hd1 tok m)
    = AddWithResetToken id hd2 tok m
  ∧ handlers (Add id hd2 (AddWithResetToken id hd1 tok m)) !! id
    = Some {| handler := hd2; resetToken := None |}
  ∧ resetTokens (Add id hd2 (AddWithResetToken id hd1 tok m)) !! tok = Some hd1.
Proof.
  unfold Add, AddWithResetToken, set_handlers, set_resetTokens. simpl.
  rewrite !insert_insert_eq. split_and!; [done|done| |]; apply lookup_insert_eq.
Qed.

Lemma indexAgrees_Add m id hd :
  tokenless m id = true → indexAgrees m → indexAgrees (Add id hd m).
Proof.
  intros Hfree Hagree tok hd' Hidx. destruct (Hagree tok hd' Hidx) as [id0 Hent].
  exists id0. simpl. rewrite lookup_insert_ne; [done|].
  intros <-. unfold tokenless in Hfree. rewrite Hent in Hfree.
  by apply bool_decide_eq_true in Hfree.
Qed.

Lemma indexAgrees_AddWithResetToken m id hd token :
  tokenless m id = true → indexAgrees m →
  indexAgrees (AddWithResetToken id hd token m).
Proof.
  intros Hfree Hagree tok hd' Hidx. simpl in Hidx.
  apply lookup_insert_Some in Hidx as [[<- <-]|[Hne Hidx]].
  - exists id. simpl. apply lookup_insert_eq.
  - destruct (Hagree tok hd' Hidx) as [id0 Hent].
    exists id0. simpl. rewrite lookup_insert_ne; [done|].
    intros <-. unfold tokenless in Hfree. rewrite Hent in Hfree.
    by apply bool_decide_eq_true in Hfree.
Qed.

Lemma indexAgrees_remove m id :
  indexAgrees m → indexAgrees (removeByConnectionIDAsString id m).
Proof.
  intros Hagree. unfold removeByConnectionIDAsString.
  destruct (handlers m !! id) as [gone|] eqn:Hgone; [|done].
  destruct (resetToken gone) as [token|] eqn:Htoken.
  - intros tok hd Hidx. simpl in Hidx.
    apply lookup_delete_Some in Hidx as [Hne Hidx].
    destruct (Hagree tok hd Hidx) as [id0 Hent].
    exists id0. simpl. rewrite lookup_delete_ne; [done|].
    intros <-. rewrite Hgone in Hent. injection Hent as ->. simpl in Htoken.
    congruence.
  - intros tok hd Hidx. simpl in Hidx.
    destruct (Hagree tok hd Hidx) as [id0 Hent].
    exists id0. simpl. rewrite lookup_delete_ne; [done|].
    intros <-. rewrite Hgone in Hent. injection Hent as ->. done.
Qed.

Lemma indexAgrees_step w o :
  collisionFree (phm w) o = true →
  indexAgrees (phm w) → indexAgrees (phm (step w o).1).
Proof.
  intros Hfree Hm. destruct o; simpl in *.
  - by apply indexAgrees_Add.
  - apply andb_prop in Hfree as [H1 _]. by apply indexAgrees_AddWithResetToken.
  - by apply indexAgrees_remove.
  - done.
  - done.
  - done.
  - unfold close. by destruct (closed (phm w)).
  - generalize (filter (λ t, when t ≤ clock w + Z.max 0 d) (timers w)).
    intros due. revert Hm. generalize (phm w).
    induction due as [|t due IH]; intros m Hm; [done|].
    simpl. apply IH. by apply indexAgrees_remove.
Qed.

(** X15.  In every state reached from the empty registry without
    collisions, every token of the index leads to a handler that is
    registered, under some connection ID, with that very token: a
    stateless reset can only destroy a handler that is registered with
    the token received. *)
Theorem X15_index_leads_to_registered_handlers `{P : Protocol} c ops :
  collisionFreeRun (newWorld c) ops = true →
  indexAgrees (phm (run (newWorld c) ops).1).
Proof.
  assert (indexAgrees (phm (newWorld c))) as Hinit.
  { intros tok hd Hidx. simpl in Hidx. by rewrite lookup_empty in Hidx. }
  revert Hinit. generalize (newWorld c). intros w. revert w.
  induction ops as [|o ops IH]; intros w Hm Hfree; [done|].
  change (collisionFree (phm w) o && collisionFreeRun (step w o).1 ops = true)
    in Hfree.
  apply andb_prop in Hfree as [Ho Hops].
  pose proof (indexAgrees_step w o Ho Hm) as H1.
  change (run w (o :: ops))
    with (let '(w1, calls) := step w o in
          let '(w2, calls') := run w1 ops in (w2, calls ++ calls')).
  destruct (step w o) as [w1 calls1].
  specialize (IH w1 H1 Hops). by destruct (run w1 ops).
Qed.

(** * Further properties of the loop and of retirement *)

Section LoopBounds.
Context `{P : Protocol}.

Lemma handlePacket_delivery_length now h addr dgram ev p :
  ev ∈ (handlePacket now h addr dgram).1 →
  packetOf ev = Some p →
  (length (bytesOf p) ≤ length dgram)%nat.
Proof.
  rewrite handlePacket_eq.
  destruct (ParseInvariantHeader dgram (connIDLen h)) as [err|[iHdr n]].
  { by intros ?%elem_of_nil. }
  destruct (handlePacket_lookup h iHdr dgram) as [deliver sentBy version|calls res rlocked]
    eqn:Hlk.
  - destruct (Parse _ _ _ _) as [err|[hdr k]]; simpl.
    { by intros ?%elem_of_nil. }
    destruct (handlePacket_truncate _ _) as [res|packetData] eqn:Htr; simpl.
    { by intros ?%elem_of_nil. }
    intros ->%list_elem_of_singleton Hp.
    apply handlePacket_truncate_inr in Htr as [Hpre%prefix_length _].
    rewrite length_drop in Hpre.
    assert (p = {| remoteAddr := addr;
                   header := Header.setRaw (take (n + k) dgram) hdr;
                   data := packetData; rcvTime := now |}) as ->.
    { apply handlePacket_lookup_Deliver in Hlk
        as [(entry & _ & -> & _)|(_ & _ & srv & _ & -> & _)];
        simpl in Hp; congruence. }
    unfold bytesOf. simpl. rewrite length_app, length_take. lia.
  - apply handlePacket_lookup_Return in Hlk
      as [_ [[-> _]|(_ & _ & _ & _ & hd & _ & ->)]]; simpl.
    + by intros ?%elem_of_nil.
    + by intros ->%list_elem_of_singleton.
Qed.

Lemma close_delivers_nothing e h ev p :
  ev ∈ (close e h).1.2 → packetOf ev = Some p → False.
Proof.
  unfold close. destruct (closed h); simpl.
  { by intros ?%elem_of_nil. }
  intros [Hin|Hin]%elem_of_app.
  - apply list_elem_of_fmap in Hin as (kv & -> & _). done.
  - destruct (server h); [|by apply elem_of_nil in Hin].
    by apply list_elem_of_singleton in Hin as ->.
Qed.

(** X16.  The loop reads at most [MaxReceivePacketSize] bytes of a
    datagram: no packet that it has delivered, to a handler or to the
    server, carries more bytes than that. *)
Theorem X16_loop_delivers_at_most_MaxReceivePacketSize reads h ev p :
  ev ∈ (listen reads h).1.2 →
  packetOf ev = Some p →
  (length (bytesOf p) ≤ MaxReceivePacketSize)%nat.
Proof.
  intros Hin Hp. revert Hin. unfold listen. generalize 0%nat.
  induction reads as [|[now addr datagram|err] reads IH]; intros k; simpl.
  - by intros ?%elem_of_nil.
  - pose proof (handlePacket_delivery_length now h addr
                  (take MaxReceivePacketSize datagram)) as Hlen.
    rewrite length_take in Hlen.
    destruct (handlePacket now h addr (take MaxReceivePacketSize datagram))
      as [calls [|e|]]; simpl in Hlen.
    + specialize (IH (if leavesRLocked h (take MaxReceivePacketSize datagram)
                      then S k else k)).
      destruct (listen_loop _ reads h) as [[h' calls'] st]. simpl in *.
      intros [Hin|Hin]%elem_of_app; [|by apply IH].
      specialize (Hlen ev p Hin Hp). lia.
    + specialize (IH (if leavesRLocked h (take MaxReceivePacketSize datagram)
                      then S k else k)).
      destruct (listen_loop _ reads h) as [[h' calls'] st]. simpl in *.
      intros [Hin|Hin]%elem_of_app.
      { specialize (Hlen ev p Hin Hp). lia. }
      apply elem_of_cons in Hin as [->|Hin]; [done|by apply IH].
    + simpl. intros Hin. specialize (Hlen ev p Hin Hp). lia.
  - destruct k; simpl; [|by intros ?%elem_of_nil].
    pose proof (close_delivers_nothing err h ev p) as Hno.
    destruct (close err h) as [[h1 calls] res]. simpl in *.
    intros Hin. by destruct (Hno Hin Hp).
Qed.

(** X17.  Once the registry is closed, the read error that ends the
    loop does nothing more, if no datagram read before it has left the
    read lock held: the loop returns with the registry as it is, having
    made only the calls of those datagrams. *)
Theorem X17_read_error_after_close_is_quiet h oks err rest :
  (16 ≤ MinStatelessResetSize)%nat →
  Z.of_nat MaxReceivePacketSize + 2 ^ 8 ≤ 2 ^ 63 →
  closed h = true →
  Forall isReadOk oks →
  Forall (λ r, leaks h r = false) oks →
  listen (oks ++ ReadErr err :: rest) h = (h, oks ≫= dispatch h, Returned).
Proof.
  intros Hmin Hmax Hclosed Hoks Hfree. unfold listen.
  rewrite listen_loop_ReadErr, rlocksAfter_none by done.
  rewrite close_closed by done. by rewrite app_nil_r.
Qed.

(** X22.  What the loop does with what it reads (for a reset size of
    at least 16 bytes and datagrams that fit an [int]).  As long as the
    reads succeed it keeps reading, hands every datagram to
    [handlePacket], logs the error of those for which it returns one,
    and leaves the registry as it is.  At the first read that fails it
    calls [close] with that error and reads no further: if no datagram
    has left the read lock held, [close] runs and the loop returns; if
    one has, [close] never gets the mutex, nothing is destroyed and the
    loop does not return. *)
Theorem X22_loop_returns_or_blocks_on_read_error h :
  (16 ≤ MinStatelessResetSize)%nat →
  Z.of_nat MaxReceivePacketSize + 2 ^ 8 ≤ 2 ^ 63 →
  (∀ oks, Forall isReadOk oks →
     listen oks h = (h, oks ≫= dispatch h, Reading))
  ∧ (∀ oks err rest, Forall isReadOk oks →
       Forall (λ r, leaks h r = false) oks →
       listen (oks ++ ReadErr err :: rest) h
       = let '(h1, calls, _) := close err h in
         (h1, (oks ≫= dispatch h) ++ calls, Returned))
  ∧ (∀ oks err rest, Forall isReadOk oks →
       Exists (λ r, leaks h r = true) oks →
       listen (oks ++ ReadErr err :: rest) h
       = (h, oks ≫= dispatch h, Blocked))
  ∧ (∀ reads, (listen reads h).2 = Returned ∨ (listen reads h).2 = Blocked
              ↔ Exists isReadErr reads)
  ∧ (∀ now addr datagram calls err,
       handlePacket now h addr (take MaxReceivePacketSize datagram)
       = (calls, Error err) →
       dispatch h (ReadOk now addr datagram) = calls ++ [EvDebugf addr err]).
Proof.
  intros Hmin Hmax. unfold listen. split_and!.
  - intros oks Hoks. by apply listen_loop_oks.
  - intros oks err rest Hoks Hfree.
    by rewrite listen_loop_ReadErr, rlocksAfter_none.
  - intros oks err rest Hoks Hleak.
    rewrite listen_loop_ReadErr by done.
    by destruct (rlocksAfter_some h 0 oks Hleak) as [n ->].
  - intros reads. generalize 0%nat.
    induction reads as [|[now addr datagram|err] reads IH]; intros k.
    + simpl. split; [by intros [|]|]. by intros ?%Exists_nil.
    + rewrite listen_loop_ReadOk by done.
      specialize (IH (if leaks h (ReadOk now addr datagram) then S k else k)).
      destruct (listen_loop _ reads h) as [[h' calls] st]. simpl in *.
      rewrite IH. split.
      * by apply Exists_cons_tl.
      * by intros [[]|?]%Exists_cons.
    + simpl. split; [intros _; by apply Exists_cons_hd|]. intros _.
      destruct k; [|by right].
      destruct (close err h) as [[h1 calls] res]. by left.
  - intros now addr datagram calls err Hhp. simpl. by rewrite Hhp.
Qed.

End LoopBounds.

Lemma afterFuncs_closeAndRetire now d (l : list (bytes * packetHandlerEntry)) :
  afterFuncs now (l ≫= closeAndRetire d)
  = (λ kv, {| when := now + d; arg := kv.1 |}) <$> l.
Proof.
  unfold afterFuncs. induction l as [|kv l IH]; [done|].
  rewrite bind_cons, fmap_cons, omap_app, IH. done.
Qed.

Lemma fire_other m t id :
  arg t ≠ id → handlers (fire m t) !! id = handlers m !! id.
Proof.
  intros Hne. unfold fire, removeByConnectionIDAsString.
  destruct (handlers m !! arg t) as [entry|]; [|done].
  destruct (resetToken entry); simpl; by rewrite lookup_delete_ne.
Qed.

Lemma foldl_fire_other due m id :
  Forall (λ t, arg t ≠ id) due →
  handlers (foldl fire m due) !! id = handlers m !! id.
Proof.
  intros Hall. revert m. induction Hall as [|t due Ht _ IH]; intros m; [done|].
  simpl. by rewrite IH, fire_other.
Qed.

Lemma foldl_fire_server due m : server (foldl fire m due) = server m.
Proof.
  revert m. induction due as [|t due IH]; intros m; [done|].
  simpl. rewrite IH. unfold fire, removeByConnectionIDAsString.
  destruct (handlers m !! arg t) as [entry|]; [|done].
  by destruct (resetToken entry).
Qed.

(** X18.  [CloseServer] unregisters the server side for good once
    the delay has passed: after it, and after at least the registry's
    retirement delay, the server slot is empty and every connection ID
    that was registered with a server-side handler is gone, while an ID
    registered with a client-side handler, with no retirement of its
    own pending, still has its entry. *)
Theorem X18_CloseServer_unregisters_after_the_delay w d id entry :
  handlers (phm w) !! id = Some entry →
  deleteRetiredSessionsAfter (phm w) ≤ Z.max 0 d →
  let w2 := sleep d (step w OpCloseServer).1 in
  server (phm w2) = None
  ∧ (GetPerspective (handler entry) = PerspectiveServer →
     handlers (phm w2) !! id = None)
  ∧ (GetPerspective (handler entry) = PerspectiveClient →
     Forall (λ t, arg t ≠ id) (timers w) →
     handlers (phm w2) !! id = Some entry).
Proof.
  intros Hent Hd.
  assert (step w OpCloseServer
          = ({| phm := set_server None (phm w); clock := clock w;
                timers := timers w
                          ++ afterFuncs (clock w) (CloseServer (phm w)).2 |},
             (CloseServer (phm w)).2)) as -> by done.
  rewrite CloseServer_calls, afterFuncs_closeAndRetire.
  unfold sleep. simpl. split_and!.
  - by rewrite foldl_fire_server.
  - intros Hsrv.
    apply (foldl_fire_removes _ _
             {| when := clock w + deleteRetiredSessionsAfter (phm w); arg := id |}).
    apply list_elem_of_filter. split; [simpl; lia|].
    apply elem_of_app. right. apply list_elem_of_fmap.
    exists (id, entry). split; [done|].
    apply list_elem_of_filter. split; [done|]. by apply elem_of_map_to_list.
  - intros Hcli Hpending. rewrite foldl_fire_other; [done|].
    apply Forall_forall. intros t [_ [Hin|Hin]%elem_of_app]%list_elem_of_filter.
    + rewrite Forall_forall in Hpending. by apply Hpending.
    + apply list_elem_of_fmap in Hin
        as ([id' entry'] & -> & [Hsrv Hin]%list_elem_of_filter).
      apply elem_of_map_to_list in Hin. simpl. intros ->.
      unfold isServerEntry in Hsrv. simpl in Hsrv. congruence.
Qed.

(** * The further properties at work *)

Lemma X1_witness :
  handlePacket (P := unparsable) 0
    (set_server None
       (set_resetTokens (λ _, ∅) (set_handlers (λ _, ∅) (withServer unparsable))))
    "peer" [x40]
  = ([], Error (ErrInvariantHeader (ErrExternal "EOF"))).
Proof.
  apply (X1_unparsable_datagram_is_dropped (P := unparsable)
           0 (withServer unparsable) "peer" [x40] (ErrExternal "EOF")).
  reflexivity.
Defined.

Lemma X2_witness :
  let dgram := replicate 10 x00 ++ [x61; x62; x63; x64] in
  handlePacket (P := longToX) 0 (withServer longToX) "peer" dgram
  = ([EvServerHandlePacket srv1
        {| remoteAddr := "peer";
           header := Header.setRaw (replicate 10 x00) (scriptHeader true 5 2);
           data := [x61; x62; x63]; rcvTime := 0 |}], Nil).
Proof.
  intros dgram.
  apply (X2_unknown_long_header_goes_to_server (P := longToX)
           0 (withServer longToX) "peer" dgram (longTo idX) 7%nat srv1).
  - unfold fitsInt. simpl. lia.
  - reflexivity.
  - reflexivity.
  - by vm_compute.
  - reflexivity.
Defined.

Lemma X4_witness :
  handlePacket (P := shortToX) 0 (withTokenA shortToX) "peer" (replicate 42 x00)
  = ([], Error (ErrShortHeaderUnexpectedConnID idX)).
Proof.
  apply (X4_unknown_token_is_dropped (P := shortToX)
           0 (withTokenA shortToX) "peer" (replicate 42 x00) (shortTo idX) 3%nat).
  - reflexivity.
  - reflexivity.
  - by vm_compute.
  - simpl. lia.
  - simpl. lia.
  - by vm_compute.
Defined.

Lemma X5_witness :
  let dgram := replicate 26 x00 ++ tokA in
  resetTokens (withTokenA shortToX) !! drop (length dgram - 16) dgram = Some hS.
Proof.
  intros dgram.
  destruct (X5_destroy_only_on_stateless_reset (P := shortToX)
              0 (withTokenA shortToX) "peer" dgram hS ErrStatelessReset)
    as (iHdr & n & _ & _ & _ & _ & _ & Hidx & _).
  - vm_compute. by apply list_elem_of_singleton.
  - exact Hidx.
Defined.

Lemma X7_witness :
  let dgram := [x40; x0a; x01; x07; x61; x62] in
  bytesOf {| remoteAddr := "peer";
             header := Header.setRaw [x40; x0a; x01; x07] (scriptHeader false 0 1);
             data := [x61; x62]; rcvTime := 0 |}
  = dgram.
Proof.
  intros dgram.
  refine (proj2 (proj2 (proj2
            (X7_delivered_packet_is_the_datagram (P := shortToA)
               0 (withA shortToA) "peer" dgram
               (EvHandlePacket hS
                  {| remoteAddr := "peer";
                     header := Header.setRaw [x40; x0a; x01; x07]
                                 (scriptHeader false 0 1);
                     data := [x61; x62]; rcvTime := 0 |})
               _ _ _))) _).
  - vm_compute. by apply list_elem_of_singleton.
  - reflexivity.
  - reflexivity.
Defined.

Lemma X9_witness :
  (handlePacket (P := shortToX) 0 (withTokenA shortToX) "peer" [x40; x0c; x03]).2
  ≠ Panic.
Proof.
  apply (X9_handlePacket_does_not_panic (P := shortToX)
           0 (withTokenA shortToX) "peer" [x40; x0c; x03]).
  - simpl. lia.
  - unfold fitsInt. simpl. lia.
Defined.

Lemma X10_witness :
  let dgram := replicate 26 x00 ++ tokA in
  handlePacket (P := shortToX) 0
    (AddWithResetToken idA hS tokA (newPacketHandlerMap (P := shortToX) 2))
    "peer" dgram
  = ([EvDestroy hS ErrStatelessReset], Nil).
Proof.
  intros dgram.
  apply (X10_AddWithResetToken_arms_the_reset (P := shortToX)
           0 (newPacketHandlerMap (P := shortToX) 2) "peer" dgram
           (shortTo idX) 3%nat idA hS (replicate 26 x00) tokA).
  - reflexivity.
  - reflexivity.
  - by vm_compute.
  - by vm_compute.
  - simpl. lia.
  - reflexivity.
  - reflexivity.
Defined.

Lemma X11_witness :
  let dgram := replicate 26 x00 ++ tokA in
  handlePacket (P := shortToA) 0 (Remove idA (withTokenA shortToA)) "peer" dgram
  = ([], Error (ErrShortHeaderUnexpectedConnID idA)).
Proof.
  intros dgram.
  apply (X11_removed_id_and_token_are_unknown (P := shortToA)
           0 (withTokenA shortToA) "peer" dgram (shortTo idA) 3%nat idA
           {| handler := hS; resetToken := Some tokA |} (replicate 26 x00) tokA).
  - by vm_compute.
  - reflexivity.
  - reflexivity.
  - reflexivity.
  - reflexivity.
  - reflexivity.
  - reflexivity.
Defined.

Lemma X13_witness :
  Remove idB (Add idB hC (withA shortToA)) = withA shortToA.
Proof.
  refine (proj1 (X13_Add_then_Remove_restores (withA shortToA) idB hC tokA _)).
  by vm_compute.
Defined.

Lemma X15_witness :
  indexAgrees (phm (run (newWorld (P := shortToA) 2) quietRun).1).
Proof.
  apply (X15_index_leads_to_registered_handlers (P := shortToA) 2 quietRun).
  by vm_compute.
Defined.

Lemma X16_witness :
  let p := {| remoteAddr := "peer";
              header := Header.setRaw [x40; x0a; x01; x07] (scriptHeader false 0 1);
              data := [x61; x62]; rcvTime := 1 |} in
  (length (bytesOf p) ≤ MaxReceivePacketSize (Protocol := shortToA))%nat.
Proof.
  intros p.
  apply (X16_loop_delivers_at_most_MaxReceivePacketSize (P := shortToA)
           [ReadOk 1 "peer" [x40; x0a; x01; x07; x61; x62]]
           (withA shortToA) (EvHandlePacket hS p) p).
  - vm_compute. by apply list_elem_of_singleton.
  - reflexivity.
Defined.

Lemma X17_witness :
  let h := (close (ErrExternal "closed") (withA shortToA)).1.1 in
  listen (P := shortToA)
    [ReadOk 1 "peer" [x40; x0a; x01; x07; x61; x62];
     ReadErr (ErrExternal "closed")] h
  = (h,
     [EvHandlePacket hS
        {| remoteAddr := "peer";
           header := Header.setRaw [x40; x0a; x01; x07] (scriptHeader false 0 1);
           data := [x61; x62]; rcvTime := 1 |}],
     Returned).
Proof.
  intros h.
  apply (X17_read_error_after_close_is_quiet (P := shortToA)
           h [ReadOk 1 "peer" [x40; x0a; x01; x07; x61; x62]]
           (ErrExternal "closed") []).
  - simpl. lia.
  - simpl. lia.
  - reflexivity.
  - repeat constructor.
  - repeat constructor.
Defined.

Lemma X22_witness :
  let h := withA shortToX in
  listen (P := shortToX)
    [ReadOk 1 "peer" [x40; x0c; x03]; ReadErr (ErrExternal "closed")] h
  = (h, [EvDebugf "peer" (ErrShortHeaderUnexpectedConnID idX)], Blocked).
Proof.
  intros h.
  pose proof (X22_loop_returns_or_blocks_on_read_error (P := shortToX) h) as H.
  destruct H as (_ & _ & H & _).
  - simpl. lia.
  - simpl. lia.
  - apply (H [ReadOk 1 "peer" [x40; x0c; x03]]).
    + repeat constructor.
    + apply Exists_cons_hd. by vm_compute.
Defined.

Lemma X18_witness :
  let w := {| phm := mixed shortToA; clock := 0; timers := [] |} in
  handlers (phm (sleep 5000000000 (step w OpCloseServer).1)) !! idA = None.
Proof.
  intros w.
  refine (proj1 (proj2
            (X18_CloseServer_unregisters_after_the_delay w 5000000000 idA
               {| handler := hS; resetToken := None |} _ _)) _).
  - by vm_compute.
  - by vm_compute.
  - reflexivity.
Defined.

(** * Closing, retiring and the dispatcher *)

(** X19.  Closing the registry does not stop the dispatcher: [close]
    keeps every entry, every token and the server, and a datagram is
    handled after it exactly as it would have been before. *)
Theorem X19_close_does_not_stop_dispatch `{P : Protocol} e m now addr dgram :
  handlers (close e m).1.1 = handlers m
  ∧ resetTokens (close e m).1.1 = resetTokens m
  ∧ server (close e m).1.1 = server m
  ∧ handlePacket now (close e m).1.1 addr dgram = handlePacket now m addr dgram.
Proof. unfold close. by destruct (closed m). Qed.

(** X20.  A retired connection ID stays routable until the delay has
    passed: after [Retire], as long as less than the registry's delay
    has gone by and no earlier retirement of that ID is pending, the ID
    has the entry it had. *)
Theorem X20_retired_id_stays_until_the_delay w id d :
  Forall (λ t, arg t ≠ id) (timers w) →
  Z.max 0 d < deleteRetiredSessionsAfter (phm w) →
  handlers (phm (sleep d (step w (OpRetire id)).1)) !! id
  = handlers (phm w) !! id.
Proof.
  intros Hpending Hd. unfold sleep. simpl.
  rewrite foldl_fire_other; [done|].
  apply Forall_forall. intros t [Hdue [Hin|Hin]%elem_of_app]%list_elem_of_filter.
  - rewrite Forall_forall in Hpending. by apply Hpending.
  - apply list_elem_of_singleton in Hin as ->. simpl in Hdue. lia.
Qed.

(** X21.  A pending retirement is not cancelled by registering the
    connection ID again: [Retire], then [Add] or [AddWithResetToken]
    under the same ID, and the new entry is there; but once the delay
    has passed the timer fires and the ID is not registered any more. *)
Theorem X21_retirement_removes_a_readded_id w id hd tok d :
  deleteRetiredSessionsAfter (phm w) ≤ Z.max 0 d →
  let w1 := (run w [OpRetire id; OpAdd id hd]).1 in
  let w2 := (run w [OpRetire id; OpAddWithResetToken id hd tok]).1 in
  handlers (phm w1) !! id = Some {| handler := hd; resetToken := None |}
  ∧ handlers (phm (sleep d w1)) !! id = None
  ∧ handlers (phm w2) !! id = Some {| handler := hd; resetToken := Some tok |}
  ∧ handlers (phm (sleep d w2)) !! id = None.
Proof.
  intros Hd. simpl. split_and!.
  - apply lookup_insert_eq.
  - unfold sleep. simpl.
    apply (foldl_fire_removes _ _
             {| when := clock w + deleteRetiredSessionsAfter (phm w); arg := id |}).
    apply list_elem_of_filter. split; [simpl; lia|].
    rewrite app_nil_r. apply elem_of_app. right. by apply list_elem_of_singleton.
  - apply lookup_insert_eq.
  - unfold sleep. simpl.
    apply (foldl_fire_removes _ _
             {| when := clock w + deleteRetiredSessionsAfter (phm w); arg := id |}).
    apply list_elem_of_filter. split; [simpl; lia|].
    rewrite app_nil_r. apply elem_of_app. right. by apply list_elem_of_singleton.
Qed.

Lemma X20_witness :
  let w := {| phm := mixed shortToA; clock := 0; timers := [] |} in
  handlers (phm (sleep 1000000000 (step w (OpRetire idA)).1)) !! idA
  = handlers (mixed shortToA) !! idA.
Proof.
  intros w.
  apply (X20_retired_id_stays_until_the_delay w idA 1000000000).
  - constructor.
  - by vm_compute.
Defined.

Lemma X21_witness :
  let w := {| phm := mixed shortToA; clock := 0; timers := [] |} in
  handlers (phm (sleep 5000000000 (run w [OpRetire idA; OpAdd idA hC]).1)) !! idA
  = None.
Proof.
  intros w.
  refine (proj1 (proj2
            (X21_retirement_removes_a_readded_id w idA hC tokA 5000000000 _))).
  by vm_compute.
Defined.

End quic.
